(** * Instagram URL Cleaner: the validation and cleaning core of
      [static/js/app.js], embedded and verified.

    The model comes first, following the source top-down:

    - [JS]: the ECMAScript string primitives the class uses
      ([includes], [split], [toLowerCase], [trim], array indexing) and
      exceptions;
    - [URL] and [URLParser]: the platform's [URL] object and its
      constructor, which the class calls but does not define;
    - [isValidInstagramUrl], [cleanInstagramUrl], [validateAndCleanUrl] and
      the DOM helpers they call, with exceptions and the page state
      written out;
    - [Whatwg]: a reference implementation of the URL constructor after
      the WHATWG URL Standard, used to run the class on concrete inputs;
    - [Shell]: the rest of the class (clearing, copying, the keyboard
      shortcuts, the timers) on the whole application state, and the
      application as a machine driven by events.

    Then the vocabulary of the statements: occurrences of a separator, what
    the standard guarantees of a parsed URL ([Delimits],
    [LowersSpecialHosts], [Normalizes]), the normal forms of the reference
    parser.  Then the properties: the general theorems hold for every URL
    constructor with the guarantee they name, and the reference parser is
    proved to have all three.

    A JavaScript string is a sequence of code units; here it is a
    [list ascii], whose characters are the code units U+0000..U+00FF. *)

From Stdlib Require Import List Ascii String Bool Arith NArith Lia DecimalString.

Import ListNotations.

Open Scope string_scope.

Open Scope list_scope.

(** ** Strings *)

Definition jsstring := list ascii.

Definition lit (s : string) : jsstring := list_ascii_of_string s.

Coercion lit : string >-> jsstring.

Definition ascii_eqb : ascii -> ascii -> bool := Ascii.eqb.

Fixpoint str_eqb (a b : jsstring) : bool :=
  match a, b with
  | [], [] => true
  | x :: a', y :: b' => ascii_eqb x y && str_eqb a' b'
  | _, _ => false
  end.

Definition code (c : ascii) : N := N_of_ascii c.

Module JS.

(** [s.startsWith(p)], also the "match at this position" test of
    [includes] and [split]. *)
Fixpoint starts_with (p s : jsstring) : bool :=
  match p, s with
  | [], _ => true
  | _ :: _, [] => false
  | x :: p', y :: s' => ascii_eqb x y && starts_with p' s'
  end.

(** [s.includes(sub)]. *)
Fixpoint includes (s sub : jsstring) : bool :=
  starts_with sub s ||
  match s with
  | [] => false
  | _ :: t => includes t sub
  end.

(** [s.split(sep)] without a limit.  The scan goes left to right; at a
    match the piece read so far is emitted and the scan resumes after the
    separator ([skip] counts the separator's remaining code units).  With
    an empty separator the result is the list of code units. *)
Fixpoint split_scan (sep : jsstring) (skip : nat) (cur s : jsstring)
  : list jsstring :=
  match s with
  | [] => [cur]
  | c :: t =>
      match skip with
      | S k => split_scan sep k cur t
      | O =>
          if starts_with sep s
          then cur :: split_scan sep (List.length sep - 1) [] t
          else split_scan sep 0 (cur ++ [c]) t
      end
  end.

Definition split (s sep : jsstring) : list jsstring :=
  match sep with
  | [] => map (fun c => [c]) s
  | _ :: _ => split_scan sep 0 [] s
  end.

(** [a[i]]: [None] stands for [undefined]. *)
Definition index {A} (a : list A) (i : nat) : option A := nth_error a i.

(** A template literal prints [undefined] as the word. *)
Definition to_text (v : option jsstring) : jsstring :=
  match v with
  | Some s => s
  | None => lit "undefined"
  end.

(** [c.toLowerCase()] on U+0000..U+00FF: A-Z and the capital letters
    U+00C0..U+00DE (U+00D7, the multiplication sign, is not a letter). *)
Definition lower_char (c : ascii) : ascii :=
  let n := code c in
  if ((65 <=? n) && (n <=? 90)
      || (192 <=? n) && (n <=? 222) && negb (n =? 215))%N
  then ascii_of_N (n + 32)
  else c.

Definition toLowerCase (s : jsstring) : jsstring := map lower_char s.

(** WhiteSpace and LineTerminator code units below U+0100. *)
Definition is_white (c : ascii) : bool :=
  let n := code c in
  ((9 <=? n) && (n <=? 13) || (n =? 32) || (n =? 160))%N.

Fixpoint trim_start (s : jsstring) : jsstring :=
  match s with
  | c :: t => if is_white c then trim_start t else s
  | [] => []
  end.

Definition trim (s : jsstring) : jsstring :=
  rev (trim_start (rev (trim_start s))).

(** Truthiness of a string: only the empty string is falsy. *)
Definition truthy (s : jsstring) : bool :=
  match s with
  | [] => false
  | _ :: _ => true
  end.

(** Exceptions.  A computation completes normally or throws. *)
Inductive exn : Type :=
| TypeError
| Error (message : jsstring).

Inductive completion (A : Type) : Type :=
| Normal (a : A)
| Throw (e : exn).

Arguments Normal {A} a.

Arguments Throw {A} e.

Definition bind {A B} (m : completion A) (k : A -> completion B)
  : completion B :=
  match m with
  | Normal a => k a
  | Throw e => Throw e
  end.

(** [try { body } catch (error) { handler }]. *)
Definition try_catch {A} (body : completion A) (handler : exn -> completion A)
  : completion A :=
  match body with
  | Normal a => Normal a
  | Throw e => handler e
  end.

End JS.

Import JS.

Notation "x <- m ;; k" := (JS.bind m (fun x => k))
  (at level 61, m at next level, right associativity).

(** ** The platform's URL object

    [new URL(url)] is provided by the browser.  The class reads three of the
    object's getters; the record keeps the others as well, so that what the
    cleaner drops can be named. *)

Record URL : Type := mkURL {
  protocol : jsstring;   (* scheme and ":" *)
  username : jsstring;
  password : jsstring;
  hostname : jsstring;
  port     : jsstring;
  pathname : jsstring;
  search   : jsstring;   (* empty, or "?" and the query *)
  hash     : jsstring    (* empty, or "#" and the fragment *)
}.

(** The constructor: [None] when it throws its [TypeError]. *)
Class URLParser : Type := { parse_url : jsstring -> option URL }.

Definition new_URL `{URLParser} (url : jsstring) : completion URL :=
  match parse_url url with
  | Some u => Normal u
  | None => Throw TypeError
  end.

(** ** The page

    The elements [initializeElements] looks up, with the three properties the
    class touches.  A [classList] is an ordered set of tokens. *)

Record Element : Type := mkElement {
  classList   : list jsstring;
  value       : jsstring;
  textContent : jsstring
}.

Definition has_class (token : jsstring) (e : Element) : bool :=
  existsb (str_eqb token) (classList e).

Definition classList_add (token : jsstring) (e : Element) : Element :=
  if has_class token e then e
  else mkElement (classList e ++ [token]) (value e) (textContent e).

Definition classList_remove (token : jsstring) (e : Element) : Element :=
  mkElement (filter (fun t => negb (str_eqb token t)) (classList e))
            (value e) (textContent e).

Definition set_value (v : jsstring) (e : Element) : Element :=
  mkElement (classList e) v (textContent e).

Definition set_textContent (v : jsstring) (e : Element) : Element :=
  mkElement (classList e) (value e) v.

Record Page : Type := mkPage {
  cleanedUrlInput : Element;
  resultsCard     : Element;
  errorAlert      : Element;
  successAlert    : Element;
  errorMessage    : Element;
  removedParams   : Element
}.

(** Methods run on the page and may throw; what they did to the page before
    throwing stays done. *)
Definition method (A : Type) : Type := Page -> completion A * Page.

Definition ret {A} (a : A) : method A := fun p => (Normal a, p).

Definition lift {A} (m : completion A) : method A := fun p => (m, p).

Definition update (f : Page -> Page) : method unit := fun p => (Normal tt, f p).

Definition andThen {A B} (m : method A) (k : A -> method B) : method B :=
  fun p =>
    match m p with
    | (Normal a, p') => k a p'
    | (Throw e, p') => (Throw e, p')
    end.

Definition tryCatch {A} (body : method A) (handler : exn -> method A)
  : method A :=
  fun p =>
    match body p with
    | (Normal a, p') => (Normal a, p')
    | (Throw e, p') => handler e p'
    end.

Notation "x <~ m ;; k" := (andThen m (fun x => k))
  (at level 61, m at next level, right associativity).

Notation "m ;;; k" := (andThen m (fun _ => k))
  (at level 61, right associativity).

(** ** The class *)

Record CleaningResult : Type := mkResult {
  cleanUrl    : jsstring;
  removed     : jsstring;
  wasModified : bool
}.

Definition validDomains : list jsstring :=
  [ lit "instagram.com";
    lit "www.instagram.com";
    lit "m.instagram.com";
    lit "instagr.am";
    lit "www.instagr.am" ].

(** [array.includes(x)] on an array of strings. *)
Definition array_includes (a : list jsstring) (x : jsstring) : bool :=
  existsb (str_eqb x) a.

(** [v.length] of a value that may be [undefined]. *)
Definition length_of (v : option jsstring) : completion nat :=
  match v with
  | Some s => Normal (List.length s)
  | None => Throw TypeError
  end.

Definition truthy_value (v : option jsstring) : bool :=
  match v with
  | Some s => truthy s
  | None => false
  end.

Definition no_tracking : jsstring := "No tracking parameters found".

Definition invalid_domain_message : jsstring :=
  "Please enter a valid Instagram URL (e.g., https://www.instagram.com/...)".

Definition malformed_url_message : jsstring :=
  "Invalid URL format. Please check your Instagram URL and try again.".

Definition already_clean : jsstring := "URL was already clean".

Section InstagramURLCleaner.

Context {platform : URLParser}.

Definition isValidInstagramUrl (url : jsstring) : completion bool :=
  try_catch
    (urlObj <- new_URL url ;;
     let hostname := toLowerCase (hostname urlObj) in
     Normal (array_includes validDomains hostname))
    (fun _ => Normal false).

Definition cleanInstagramUrl (url : jsstring) : completion CleaningResult :=
  try_catch
    (urlObj <- new_URL url ;;
     let pathParts := split (pathname urlObj) "/?" in
     let cleanPath := index pathParts 0 in
     let cleanUrl :=
       protocol urlObj ++ lit "//" ++ hostname urlObj ++ to_text cleanPath in
     let originalParams :=
       if includes url "/?" then index (split url "/?") 1 else Some [] in
     let removedContent :=
       if truthy_value originalParams
       then lit "/?" ++ to_text originalParams
       else no_tracking in
     len <- length_of originalParams ;;
     Normal (mkResult cleanUrl removedContent (0 <? len)%nat))
    (fun _ => Throw (Error "Failed to parse URL")).

Definition hideAlerts : method unit :=
  update (fun p =>
    mkPage (cleanedUrlInput p) (resultsCard p)
           (classList_add "d-none" (errorAlert p))
           (classList_add "d-none" (successAlert p))
           (errorMessage p) (removedParams p)).

Definition hideResults : method unit :=
  update (fun p =>
    mkPage (classList_remove "border-success" (cleanedUrlInput p))
           (classList_add "d-none" (resultsCard p))
           (errorAlert p) (successAlert p)
           (errorMessage p) (removedParams p)).

Definition showError (message : jsstring) : method unit :=
  update (fun p =>
    mkPage (cleanedUrlInput p) (resultsCard p)
           (classList_remove "d-none" (errorAlert p))
           (successAlert p)
           (set_textContent message (errorMessage p))
           (removedParams p)).

Definition showResults (result : CleaningResult) : method unit :=
  update (fun p =>
    mkPage (set_value (cleanUrl result) (cleanedUrlInput p))
           (classList_remove "d-none" (resultsCard p))
           (errorAlert p) (successAlert p) (errorMessage p)
           (set_textContent (removed result) (removedParams p))) ;;;
  if wasModified result then
    update (fun p =>
      mkPage (classList_add "border-success" (cleanedUrlInput p))
             (resultsCard p) (errorAlert p) (successAlert p)
             (errorMessage p) (removedParams p))
  else
    update (fun p =>
      mkPage (classList_remove "border-success" (cleanedUrlInput p))
             (resultsCard p) (errorAlert p) (successAlert p)
             (errorMessage p)
             (set_textContent already_clean (removedParams p))).

Definition validateAndCleanUrl (url : jsstring) : method unit :=
  hideAlerts ;;;
  if negb (truthy url) then
    hideResults
  else
    valid <~ lift (isValidInstagramUrl url) ;;
    if negb valid then
      showError invalid_domain_message ;;;
      hideResults
    else
      tryCatch
        (result <~ lift (cleanInstagramUrl url) ;;
         showResults result)
        (fun _ =>
           showError malformed_url_message ;;;
           hideResults).

(** The input handlers, on the text in the field.  Each trims the text
    before it reaches [validateAndCleanUrl]. *)
Definition handleUrlInput (field : jsstring) : method unit :=
  let url := trim field in
  if truthy url then validateAndCleanUrl url else hideResults.

(** The callback [setupRealTimeValidation] schedules. *)
Definition realTimeValidation (field : jsstring) : method unit :=
  validateAndCleanUrl (trim field).

(** The callback [handlePaste] schedules. *)
Definition handlePaste (field : jsstring) : method unit :=
  let url := trim field in
  if truthy url then validateAndCleanUrl url else ret tt.

End InstagramURLCleaner.

(** ** A reference URL constructor

    The basic URL parser of the WHATWG URL Standard, run without a base URL
    and without a state override, as [new URL(url)] runs it, on strings of
    code units below U+0100.  The states are written as functions on the
    input that remains; the names are the standard's.

    The parser answers [Parsed u] or [Failure] where the standard does, and
    [Beyond] on the inputs this development leaves out:
    - the [file] scheme;
    - IPv6 literals and hosts that end in a number (IPv4);
    - hosts of special schemes that need IDNA processing: a code unit above
      U+007F, before or after percent-decoding, or a label in [xn--];
    - an opaque path with a space right before its query or fragment, where
      engines disagree. *)

Module Whatwg.

Inductive outcome (A : Type) : Type :=
| Parsed (a : A)
| Failure
| Beyond.

Arguments Parsed {A} a.

Arguments Failure {A}.

Arguments Beyond {A}.

Definition obind {A B} (m : outcome A) (k : A -> outcome B) : outcome B :=
  match m with
  | Parsed a => k a
  | Failure => Failure
  | Beyond => Beyond
  end.

Notation "x <<- m ;; k" := (obind m (fun x => k))
  (at level 61, m at next level, right associativity).

(** *** Code points *)

Definition is_char (ch : string) (c : ascii) : bool :=
  match ch with
  | String x EmptyString => ascii_eqb x c
  | _ => false
  end.

Definition between (lo hi : N) (c : ascii) : bool :=
  ((lo <=? code c) && (code c <=? hi))%N.

Definition is_c0_or_space : ascii -> bool := between 0 32.

Definition is_tab_or_newline (c : ascii) : bool :=
  ((code c =? 9) || (code c =? 10) || (code c =? 13))%N.

Definition is_upper : ascii -> bool := between 65 90.

Definition is_lower : ascii -> bool := between 97 122.

Definition is_alpha (c : ascii) : bool := is_upper c || is_lower c.

Definition is_digit : ascii -> bool := between 48 57.

Definition is_alnum (c : ascii) : bool := is_alpha c || is_digit c.

Definition is_hex (c : ascii) : bool :=
  is_digit c || between 65 70 c || between 97 102 c.

Definition ascii_lower (c : ascii) : ascii :=
  if is_upper c then ascii_of_N (code c + 32) else c.

Definition one_of (chars : string) (c : ascii) : bool :=
  existsb (ascii_eqb c) (lit chars).

(** *** Percent-encode sets *)

Definition c0_control_set (c : ascii) : bool :=
  ((code c <=? 31) || (126 <? code c))%N.

Definition is_quote (c : ascii) : bool := (code c =? 34)%N.

Definition fragment_set (c : ascii) : bool :=
  c0_control_set c || is_quote c || one_of " <>`" c.

Definition query_set (c : ascii) : bool :=
  c0_control_set c || is_quote c || one_of " #<>" c.

Definition special_query_set (c : ascii) : bool :=
  query_set c || is_char "'" c.

Definition path_set (c : ascii) : bool :=
  query_set c || one_of "?^`{}" c.

Definition userinfo_set (c : ascii) : bool :=
  path_set c || one_of "/:;=@[\]|" c.

Definition hex_digit (n : N) : ascii :=
  if (n <? 10)%N then ascii_of_N (48 + n) else ascii_of_N (55 + n).

Definition percent_byte (b : N) : jsstring :=
  ["%"%char; hex_digit (N.shiftr b 4); hex_digit (N.land b 15)].

(** The UTF-8 bytes of a code point below U+0100, each percent-encoded. *)
Definition percent_encode (c : ascii) : jsstring :=
  if (code c <? 128)%N then percent_byte (code c)
  else percent_byte (N.lor 192 (N.shiftr (code c) 6))
       ++ percent_byte (N.lor 128 (N.land (code c) 63)).

Definition utf8_percent_encode (set : ascii -> bool) (c : ascii) : jsstring :=
  if set c then percent_encode c else [c].

Definition encode_string (set : ascii -> bool) (s : jsstring) : jsstring :=
  flat_map (utf8_percent_encode set) s.

Definition hex_value (c : ascii) : N :=
  if is_digit c then code c - 48
  else if between 65 70 c then code c - 55
  else code c - 87.

(** Percent-decode: [%] and two hex digits give a byte ([skip] counts the
    digits still to pass over). *)
Fixpoint percent_decode_from (skip : nat) (s : jsstring) : jsstring :=
  match s with
  | [] => []
  | c :: t =>
      match skip with
      | S k => percent_decode_from k t
      | O =>
          match t with
          | h :: l :: _ =>
              if is_char "%" c && is_hex h && is_hex l
              then ascii_of_N (16 * hex_value h + hex_value l)
                   :: percent_decode_from 2 t
              else c :: percent_decode_from 0 t
          | _ => c :: percent_decode_from 0 t
          end
      end
  end.

Definition percent_decode : jsstring -> jsstring := percent_decode_from 0.

Definition forbidden_host (c : ascii) : bool :=
  (code c =? 0)%N || is_tab_or_newline c || one_of " #/:<>?@[\]^|" c.

Definition forbidden_domain (c : ascii) : bool :=
  forbidden_host c || (code c <=? 31)%N || is_char "%" c || (code c =? 127)%N.

(** *** Preprocessing *)

Fixpoint drop_while (p : ascii -> bool) (s : jsstring) : jsstring :=
  match s with
  | c :: t => if p c then drop_while p t else s
  | [] => []
  end.

Definition strip (s : jsstring) : jsstring :=
  rev (drop_while is_c0_or_space (rev (drop_while is_c0_or_space s))).

Definition remove_tab_newline (s : jsstring) : jsstring :=
  filter (fun c => negb (is_tab_or_newline c)) s.

(** The longest prefix whose code points satisfy [p], and what follows. *)
Fixpoint span (p : ascii -> bool) (s : jsstring) : jsstring * jsstring :=
  match s with
  | c :: t =>
      if p c then let (a, b) := span p t in (c :: a, b) else ([], s)
  | [] => ([], [])
  end.

(** *** Scheme start state, scheme state *)

Definition is_scheme_char (c : ascii) : bool := is_alnum c || one_of "+-." c.

Fixpoint scheme_state (buffer s : jsstring) : option (jsstring * jsstring) :=
  match s with
  | [] => None
  | c :: t =>
      if is_scheme_char c then scheme_state (buffer ++ [ascii_lower c]) t
      else if is_char ":" c then Some (buffer, t)
      else None
  end.

Definition scheme_start_state (s : jsstring) : option (jsstring * jsstring) :=
  match s with
  | c :: t => if is_alpha c then scheme_state [ascii_lower c] t else None
  | [] => None
  end.

Definition special_schemes : list jsstring :=
  [ lit "ftp"; lit "file"; lit "http"; lit "https"; lit "ws"; lit "wss" ].

Definition is_special (scheme : jsstring) : bool :=
  existsb (str_eqb scheme) special_schemes.

Definition default_port (scheme : jsstring) : option N :=
  if str_eqb scheme "ftp" then Some 21%N
  else if str_eqb scheme "http" || str_eqb scheme "ws" then Some 80%N
  else if str_eqb scheme "https" || str_eqb scheme "wss" then Some 443%N
  else None.

(** *** Host parsing *)

Definition is_octal : ascii -> bool := between 48 55.

(** The IPv4 number parser does not fail on this input. *)
Definition ipv4_number_ok (s : jsstring) : bool :=
  match s with
  | [] => false
  | [_] => forallb is_digit s
  | c :: d :: t =>
      if is_char "0" c && (is_char "x" d || is_char "X" d)
      then forallb is_hex t
      else if is_char "0" c then forallb is_octal (d :: t)
      else forallb is_digit s
  end.

Definition ends_in_a_number (domain : jsstring) : bool :=
  let parts := JS.split domain "." in
  let parts :=
    match last parts [] with
    | [] => removelast parts
    | _ :: _ => parts
    end in
  match parts with
  | [] => false
  | _ :: _ =>
      let l := last parts [] in
      (truthy l && forallb is_digit l) || ipv4_number_ok l
  end.

Definition has_punycode_label (domain : jsstring) : bool :=
  existsb (starts_with "xn--") (JS.split domain ".").

Definition is_ascii (c : ascii) : bool := (code c <? 128)%N.

Definition opaque_host_parser (input : jsstring) : outcome jsstring :=
  if existsb forbidden_host input then Failure
  else Parsed (encode_string c0_control_set input).

Definition domain_parser (input : jsstring) : outcome jsstring :=
  if negb (forallb is_ascii input) then Beyond
  else
    let domain := percent_decode input in
    if negb (forallb is_ascii domain) then Beyond
    else
      let asciiDomain := map ascii_lower domain in
      if has_punycode_label asciiDomain then Beyond
      else if existsb forbidden_domain asciiDomain then Failure
      else if ends_in_a_number asciiDomain then Beyond
      else Parsed asciiDomain.

Definition host_parser (isOpaque : bool) (input : jsstring)
  : outcome jsstring :=
  if starts_with "[" input then
    if is_char "]" (last input "["%char) then Beyond else Failure
  else if isOpaque then opaque_host_parser input
  else domain_parser input.

(** *** Authority state, host state, port state *)

Definition authority_end (special : bool) (c : ascii) : bool :=
  one_of "/?#" c || (special && is_char "\" c).

(** The credentials and the rest, split at the last [@]. *)
Fixpoint split_last_at (s : jsstring) : option (jsstring * jsstring) :=
  match s with
  | [] => None
  | c :: t =>
      match split_last_at t with
      | Some (a, b) => Some (c :: a, b)
      | None => if is_char "@" c then Some ([], t) else None
      end
  end.

Definition credentials (buffer : jsstring) : jsstring * jsstring :=
  let (user, rest) := span (fun c => negb (is_char ":" c)) buffer in
  (encode_string userinfo_set user,
   encode_string userinfo_set (tl rest)).

(** Host state: the buffer up to the first [:] outside brackets, and the
    port's text if there is one. *)
Fixpoint host_state (insideBrackets : bool) (buffer s : jsstring)
  : jsstring * option jsstring :=
  match s with
  | [] => (buffer, None)
  | c :: t =>
      if is_char ":" c && negb insideBrackets then (buffer, Some t)
      else
        let inside :=
          if is_char "[" c then true
          else if is_char "]" c then false
          else insideBrackets in
        host_state inside (buffer ++ [c]) t
  end.

Definition digits_value (s : jsstring) : N :=
  fold_left (fun acc c => (10 * acc + (code c - 48))%N) s 0%N.

Definition decimal (n : N) : jsstring :=
  lit (DecimalString.NilZero.string_of_uint (N.to_uint n)).

Definition port_state (scheme buffer : jsstring) : outcome jsstring :=
  if negb (forallb is_digit buffer) then Failure
  else
    match buffer with
    | [] => Parsed []
    | _ :: _ =>
        let port := digits_value buffer in
        if (65535 <? port)%N then Failure
        else
          match default_port scheme with
          | Some d => if (port =? d)%N then Parsed [] else Parsed (decimal port)
          | None => Parsed (decimal port)
          end
    end.

(** *** Path state *)

Definition is_single_dot (buffer : jsstring) : bool :=
  let b := map ascii_lower buffer in
  str_eqb b "." || str_eqb b "%2e".

Definition is_double_dot (buffer : jsstring) : bool :=
  let b := map ascii_lower buffer in
  str_eqb b ".." || str_eqb b ".%2e" || str_eqb b "%2e." || str_eqb b "%2e%2e".

(** The path is kept with its last segment first. *)
Definition path_at_slash (path : list jsstring) (buffer : jsstring)
  : list jsstring :=
  if is_double_dot buffer then tl path
  else if is_single_dot buffer then path
  else buffer :: path.

Definition path_at_end (path : list jsstring) (buffer : jsstring)
  : list jsstring :=
  if is_double_dot buffer then [] :: tl path
  else if is_single_dot buffer then [] :: path
  else buffer :: path.

Definition path_separator (special : bool) (c : ascii) : bool :=
  is_char "/" c || (special && is_char "\" c).

Fixpoint path_state (special : bool) (path : list jsstring)
         (buffer s : jsstring) : list jsstring * jsstring :=
  match s with
  | [] => (path_at_end path buffer, [])
  | c :: t =>
      if one_of "?#" c then (path_at_end path buffer, s)
      else if path_separator special c
      then path_state special (path_at_slash path buffer) [] t
      else path_state special path
                      (buffer ++ utf8_percent_encode path_set c) t
  end.

(** The path serializer behind the [pathname] getter. *)
Definition serialize_path (path : list jsstring) : jsstring :=
  flat_map (fun segment => "/"%char :: segment) (rev path).

(** *** Query state, fragment state *)

Definition fragment_state (s : jsstring) : jsstring :=
  match s with
  | c :: t => if is_char "#" c then encode_string fragment_set t else []
  | [] => []
  end.

Definition query_state (special : bool) (s : jsstring) : jsstring * jsstring :=
  match s with
  | c :: t =>
      if is_char "?" c then
        let (q, rest) := span (fun c => negb (is_char "#" c)) t in
        (encode_string (if special then special_query_set else query_set) q,
         rest)
      else ([], s)
  | [] => ([], [])
  end.

(** The [search] and [hash] getters: empty for a null or empty component. *)
Definition with_prefix (ch : string) (s : jsstring) : jsstring :=
  match s with
  | [] => []
  | _ :: _ => lit ch ++ s
  end.

Definition query_and_fragment (special : bool) (s : jsstring)
  : jsstring * jsstring :=
  let (query, rest) := query_state special s in
  (with_prefix "?" query, with_prefix "#" (fragment_state rest)).

(** *** Path start state *)

Definition path_start_state (special : bool) (s : jsstring)
  : list jsstring * jsstring :=
  match s with
  | c :: t =>
      if special then
        path_state true [] [] (if path_separator true c then t else s)
      else if one_of "?#" c then ([], s)
      else path_state false [] [] (if is_char "/" c then t else s)
  | [] => if special then path_state true [] [] [] else ([], [])
  end.

(** *** From the authority to the end *)

Definition authority_state (special : bool) (scheme s : jsstring)
  : outcome URL :=
  let (authority, rest) := span (fun c => negb (authority_end special c)) s in
  creds_host <<-
    match split_last_at authority with
    | Some (buffer, []) => Failure
    | Some (buffer, hostport) => Parsed (credentials buffer, hostport)
    | None => Parsed (([], []), authority)
    end ;;
  let '((user, pass), hostport) := creds_host in
  let (buffer, portText) := host_state false [] hostport in
  host_port <<-
    match portText with
    | Some digits =>
        if negb (truthy buffer) then Failure
        else
          host <<- host_parser (negb special) buffer ;;
          port <<- port_state scheme digits ;;
          Parsed (host, port)
    | None =>
        if special && negb (truthy buffer) then Failure
        else
          host <<- host_parser (negb special) buffer ;;
          Parsed (host, [])
    end ;;
  let (host, port) := host_port in
  let (path, rest') := path_start_state special rest in
  let (search, hash) := query_and_fragment special rest' in
  Parsed (mkURL (scheme ++ lit ":") user pass host port
                (serialize_path path) search hash).

(** A non-special scheme followed by a single slash: a path and no host. *)
Definition path_only (scheme s : jsstring) : outcome URL :=
  let (path, rest) := path_state false [] [] s in
  let (search, hash) := query_and_fragment false rest in
  Parsed (mkURL (scheme ++ lit ":") [] [] [] []
                (serialize_path path) search hash).

(** Opaque path state. *)
Definition opaque_path_state (scheme s : jsstring) : outcome URL :=
  let (path, rest) := span (fun c => negb (one_of "?#" c)) s in
  if is_char " " (last path "x"%char) && truthy rest then Beyond
  else
    let (search, hash) := query_and_fragment false rest in
    Parsed (mkURL (scheme ++ lit ":") [] [] [] []
                  (encode_string c0_control_set path) search hash).

(** *** The basic URL parser *)

Definition is_slash (c : ascii) : bool := one_of "/\" c.

Definition basic_url_parser (input : jsstring) : outcome URL :=
  let input := remove_tab_newline (strip input) in
  match scheme_start_state input with
  | None => Failure
  | Some (scheme, rest) =>
      if str_eqb scheme "file" then Beyond
      else if is_special scheme then
        authority_state true scheme (drop_while is_slash rest)
      else
        match rest with
        | c :: rest1 =>
            if is_char "/" c then
              match rest1 with
              | d :: rest2 =>
                  if is_char "/" d then authority_state false scheme rest2
                  else path_only scheme rest1
              | [] => path_only scheme rest1
              end
            else opaque_path_state scheme rest
        | [] => opaque_path_state scheme rest
        end
  end.

(** The constructor throws where the parser fails; the inputs left out are
    rejected as well. *)
Definition construct (url : jsstring) : option URL :=
  match basic_url_parser url with
  | Parsed u => Some u
  | Failure | Beyond => None
  end.

End Whatwg.

#[export] Instance reference_parser : URLParser :=
  {| parse_url := Whatwg.construct |}.

(** * The vocabulary of the statements *)

(** ** Occurrences of a separator *)

Definition occurs (sep s : jsstring) : Prop :=
  exists pre rest, s = pre ++ sep ++ rest.

(** [s] is [pre], then its first [sep], then [rest]. *)
Definition first_occurrence (sep s pre rest : jsstring) : Prop :=
  s = pre ++ sep ++ rest /\
  forall pre' rest', s = pre' ++ sep ++ rest' ->
                     List.length pre <= List.length pre'.

(** [p] is [s] cut before its first [sep], or all of [s] if it has none. *)
Definition truncated_at (sep s p : jsstring) : Prop :=
  (exists rest, first_occurrence sep s p rest) \/ (~ occurs sep s /\ p = s).

(** The same, computed. *)
Fixpoint cut (sep s : jsstring) : option (jsstring * jsstring) :=
  if starts_with sep s then Some ([], skipn (List.length sep) s)
  else
    match s with
    | [] => None
    | c :: t =>
        match cut sep t with
        | Some (pre, rest) => Some (c :: pre, rest)
        | None => None
        end
    end.

(** The piece before the first [sep]; all of [s] if there is none. *)
Definition before_first (sep s : jsstring) : jsstring :=
  match cut sep s with
  | Some (pre, _) => pre
  | None => s
  end.

(** The piece between the first [sep] and the next; empty if [s] has no
    [sep]. *)
Definition second_piece (sep s : jsstring) : jsstring :=
  match cut sep s with
  | Some (_, rest) => before_first sep rest
  | None => []
  end.

Definition removed_text (segment : jsstring) : jsstring :=
  if truthy segment then lit "/?" ++ segment else no_tracking.

(** ** What the WHATWG standard guarantees of a parsed URL

    The properties of the URL object the theorems below rely on, each a
    class of URL constructors; the reference parser is in all three
    ([reference_delimits], [reference_lowers], [reference_normalizes]). *)

Definition delimiter_free (s : jsstring) : Prop :=
  ~ In "?"%char s /\ ~ In "#"%char s.

Definition special_protocols : list jsstring :=
  [ lit "ftp:"; lit "file:"; lit "http:"; lit "https:"; lit "ws:"; lit "wss:" ].

(** [?] and [#] end the path (path state, opaque path state), and
    neither occurs in a scheme or in a host (scheme state, forbidden host
    code points). *)
Class Delimits (P : URLParser) : Prop := {
  protocol_delimiter_free :
    forall s u, parse_url s = Some u -> delimiter_free (protocol u);
  hostname_delimiter_free :
    forall s u, parse_url s = Some u -> delimiter_free (hostname u);
  pathname_delimiter_free :
    forall s u, parse_url s = Some u -> delimiter_free (pathname u)
}.

(** The host of a special scheme is a domain or an address, in lower case
    (host parser). *)
Class LowersSpecialHosts (P : URLParser) : Prop := {
  special_hostname_lower :
    forall s u, parse_url s = Some u -> In (protocol u) special_protocols ->
                toLowerCase (hostname u) = hostname u
}.

(** Scheme, host and path are in normal form: written out again, they
    parse to themselves. *)
Class Normalizes (P : URLParser) : Prop := {
  reparse_stable :
    forall s u, parse_url s = Some u -> hostname u <> [] ->
    exists u', parse_url (protocol u ++ lit "//" ++ hostname u ++ pathname u)
               = Some u'
               /\ protocol u' = protocol u
               /\ hostname u' = hostname u
               /\ pathname u' = pathname u
}.

(** ** Normal forms of the reference parser

    What the parser returns is in normal form: parsing it again changes
    nothing.  The normal forms are decidable; [plain] collects what holds of
    every code point of a scheme, a host and a path in normal form. *)

Module NormalForm.

Import Whatwg.

(** Facts about single code points are checked on all 256 of them. *)
Definition all_chars : list ascii := map ascii_of_nat (seq 0 256).

Definition scheme_canon_char (c : ascii) : bool :=
  is_scheme_char c && negb (is_upper c).

Definition scheme_canon (scheme : jsstring) : bool :=
  match scheme with
  | c :: t => is_lower c && forallb scheme_canon_char t
  | [] => false
  end.

(** Code points a parsed host is made of. *)
Definition host_safe (c : ascii) : bool :=
  negb (forbidden_host c) && negb (c0_control_set c).

Definition domain_canon (d : jsstring) : bool :=
  forallb is_ascii d
  && negb (existsb forbidden_domain d)
  && forallb (fun c => negb (is_upper c)) d
  && negb (has_punycode_label d)
  && negb (ends_in_a_number d).

Definition opaque_canon (h : jsstring) : bool := forallb host_safe h.

Definition host_canon (special : bool) (h : jsstring) : bool :=
  if special then domain_canon h else opaque_canon h.

Definition path_char (special : bool) (c : ascii) : bool :=
  negb (path_set c) && negb (path_separator special c).

Definition segment_canon (special : bool) (segment : jsstring) : bool :=
  forallb (path_char special) segment
  && negb (is_single_dot segment) && negb (is_double_dot segment).

Definition path_canon (special : bool) (path : list jsstring) : bool :=
  forallb (segment_canon special) path.

(** What follows a path is empty or starts the query or the fragment. *)
Definition after_path (rest : jsstring) : Prop :=
  match rest with
  | c :: _ => one_of "?#" c = true
  | [] => True
  end.

Fixpoint join_segments (segments : list jsstring) : jsstring :=
  match segments with
  | [] => []
  | segment :: more => "/"%char :: segment ++ join_segments more
  end.

(** Code points that preprocessing keeps and that do not end a path. *)
Definition plain (c : ascii) : bool :=
  negb (is_c0_or_space c) && negb (one_of "?#" c).

(** A parsed URL: its scheme, host and path are in normal form, or it has
    no host and an opaque path. *)
Definition normal_form (u : URL) : Prop :=
  exists scheme,
    scheme_canon scheme = true
    /\ str_eqb scheme "file" = false
    /\ protocol u = scheme ++ lit ":"
    /\ ((host_canon (is_special scheme) (hostname u) = true
         /\ exists path,
             path_canon (is_special scheme) path = true
             /\ pathname u = serialize_path path
             /\ (is_special scheme = true -> path <> []))
        \/ (hostname u = [] /\ delimiter_free (pathname u))).

End NormalForm.

(** ** What the page shows, and the claims that fail as stated *)

Section Statements.

Context {platform : URLParser}.

Definition error_hidden (page : Page) : Prop :=
  has_class "d-none" (errorAlert page) = true.

Definition error_shown (page : Page) (message : jsstring) : Prop :=
  has_class "d-none" (errorAlert page) = false
  /\ textContent (errorMessage page) = message.

Definition results_hidden (page : Page) : Prop :=
  has_class "d-none" (resultsCard page) = true.

Definition results_shown (page : Page) (r : CleaningResult) : Prop :=
  has_class "d-none" (resultsCard page) = false
  /\ value (cleanedUrlInput page) = cleanUrl r.

(** The text of the field is empty or white space only. *)
Definition whitespace_only (field : jsstring) : bool := forallb is_white field.

(** The claim as stated, at one input: the host written into [cleanUrl]
    is the lower-cased hostname. *)
Definition clean_url_host_lower_cased (s : jsstring) : Prop :=
  forall u, parse_url s = Some u ->
  exists r path,
    cleanInstagramUrl s = Normal r
    /\ truncated_at "/?" (pathname u) path
    /\ cleanUrl r
       = protocol u ++ lit "//" ++ toLowerCase (hostname u) ++ path.

(** The claim as stated, at one input: [removed] is [/?] and everything
    after the first [/?] of the raw input. *)
Definition removed_is_rest (s : jsstring) : Prop :=
  forall u pre rest,
    parse_url s = Some u -> first_occurrence "/?" s pre rest ->
    exists r, cleanInstagramUrl s = Normal r
              /\ removed r = lit "/?" ++ rest.

(** The claim as stated, at one input: the query component is found
    unchanged in [cleanUrl]. *)
Definition query_kept (s : jsstring) : Prop :=
  forall u r,
    parse_url s = Some u -> search u <> [] -> ~ occurs "/?" s ->
    cleanInstagramUrl s = Normal r ->
    occurs (search u) (cleanUrl r).

End Statements.

(** ** Concrete inputs *)

Module Inputs.

Definition reel : jsstring :=
  "https://www.instagram.com/reel/DMaaOuDK_Bk/?igsh=dHFkZW9ycmh1cnQz".

Definition upper_host : jsstring := "https://WWW.INSTAGRAM.COM/p/X/?x=1".

Definition other_scheme : jsstring := "foo://WWW.INSTAGRAM.COM/p/X".

Definition plain_query : jsstring :=
  "https://www.instagram.com/p/ABC123?igshid=xyz".

Definition bare_marker : jsstring := "https://www.instagram.com/p/ABC123/?".

Definition full_url : jsstring :=
  "https://user:pw@www.instagram.com:8443/p/ABC123?igshid=xyz#top".

(** A page with nothing on it yet. *)
Definition empty_element : Element := mkElement [] [] [].

Definition empty_page : Page :=
  mkPage empty_element empty_element empty_element
         empty_element empty_element empty_element.

Definition upper_host_parsed : URL :=
  mkURL "https:" [] [] "www.instagram.com" [] "/p/X/" "?x=1" [].

Definition full_url_parsed : URL :=
  mkURL "https:" "user" "pw" "www.instagram.com" "8443" "/p/ABC123"
        "?igshid=xyz" "#top".

Definition plain_query_parsed : URL :=
  mkURL "https:" [] [] "www.instagram.com" [] "/p/ABC123" "?igshid=xyz" [].

End Inputs.

(** * The rest of the class: clearing, copying, the keyboard, timers

    The methods the cleaning core does not reach, on the whole application
    state: the page of before, the input field, the copy button, the focus,
    the clipboard, and the callbacks that wait for a timer or for the
    clipboard.  What the browser decides (whether the clipboard can be
    written, what [execCommand] answers) comes in as [Platform]. *)

Module Shell.

(** The copy button.  [innerHTML] is kept as the string assigned to it:
    the markup the class assigns is read back as written. *)
Record Button : Type := mkButton {
  buttonClasses : list jsstring;
  innerHTML     : jsstring
}.

Definition tokens_add (token : jsstring) (l : list jsstring) : list jsstring :=
  if existsb (str_eqb token) l then l else l ++ [token].

Definition tokens_remove (token : jsstring) (l : list jsstring)
  : list jsstring :=
  filter (fun t => negb (str_eqb token t)) l.

(** What [document.activeElement] can be. *)
Inductive Control : Type :=
| OriginalUrlInput
| CleanedUrlInput
| TextArea          (* the one [fallbackCopyToClipboard] creates *)
| DocumentBody
| OtherControl.

Definition is_cleanedUrlInput (c : Control) : bool :=
  match c with
  | CleanedUrlInput => true
  | _ => false
  end.

(** The three callbacks the class hands to [setTimeout]. *)
Inductive Callback : Type :=
| ValidateField                          (* [setupRealTimeValidation] *)
| CheckPaste                             (* [handlePaste] *)
| ResetCopyButton (originalHTML : jsstring). (* [showCopySuccess] *)

Definition is_ValidateField (cb : Callback) : bool :=
  match cb with
  | ValidateField => true
  | _ => false
  end.

Definition is_ResetCopyButton (cb : Callback) : bool :=
  match cb with
  | ResetCopyButton _ => true
  | _ => false
  end.

Record App : Type := mkApp {
  ui               : Page;
  originalUrlInput : Element;
  copyBtn          : Button;
  activeElement    : Control;
  selection        : option Control;
  clipboard        : jsstring;
  bodyChildren     : list jsstring;        (* the text areas appended to the body *)
  console          : list jsstring;
  timers           : list (nat * Callback); (* pending, by timer id *)
  nextTimer        : nat;
  timeout          : option nat;           (* the variable of [setupRealTimeValidation] *)
  writes           : list jsstring         (* [writeText] calls not yet settled *)
}.

Definition set_ui (v : Page) (a : App) : App :=
  mkApp v (originalUrlInput a) (copyBtn a) (activeElement a) (selection a)
        (clipboard a) (bodyChildren a) (console a) (timers a) (nextTimer a)
        (timeout a) (writes a).

Definition set_originalUrlInput (v : Element) (a : App) : App :=
  mkApp (ui a) v (copyBtn a) (activeElement a) (selection a)
        (clipboard a) (bodyChildren a) (console a) (timers a) (nextTimer a)
        (timeout a) (writes a).

Definition set_copyBtn (v : Button) (a : App) : App :=
  mkApp (ui a) (originalUrlInput a) v (activeElement a) (selection a)
        (clipboard a) (bodyChildren a) (console a) (timers a) (nextTimer a)
        (timeout a) (writes a).

Definition set_activeElement (v : Control) (a : App) : App :=
  mkApp (ui a) (originalUrlInput a) (copyBtn a) v (selection a)
        (clipboard a) (bodyChildren a) (console a) (timers a) (nextTimer a)
        (timeout a) (writes a).

Definition set_selection (v : option Control) (a : App) : App :=
  mkApp (ui a) (originalUrlInput a) (copyBtn a) (activeElement a) v
        (clipboard a) (bodyChildren a) (console a) (timers a) (nextTimer a)
        (timeout a) (writes a).

Definition set_clipboard (v : jsstring) (a : App) : App :=
  mkApp (ui a) (originalUrlInput a) (copyBtn a) (activeElement a) (selection a)
        v (bodyChildren a) (console a) (timers a) (nextTimer a)
        (timeout a) (writes a).

Definition set_bodyChildren (v : list jsstring) (a : App) : App :=
  mkApp (ui a) (originalUrlInput a) (copyBtn a) (activeElement a) (selection a)
        (clipboard a) v (console a) (timers a) (nextTimer a)
        (timeout a) (writes a).

Definition set_console (v : list jsstring) (a : App) : App :=
  mkApp (ui a) (originalUrlInput a) (copyBtn a) (activeElement a) (selection a)
        (clipboard a) (bodyChildren a) v (timers a) (nextTimer a)
        (timeout a) (writes a).

Definition set_timers (v : list (nat * Callback)) (a : App) : App :=
  mkApp (ui a) (originalUrlInput a) (copyBtn a) (activeElement a) (selection a)
        (clipboard a) (bodyChildren a) (console a) v (nextTimer a)
        (timeout a) (writes a).

Definition set_nextTimer (v : nat) (a : App) : App :=
  mkApp (ui a) (originalUrlInput a) (copyBtn a) (activeElement a) (selection a)
        (clipboard a) (bodyChildren a) (console a) (timers a) v
        (timeout a) (writes a).

Definition set_timeout (v : option nat) (a : App) : App :=
  mkApp (ui a) (originalUrlInput a) (copyBtn a) (activeElement a) (selection a)
        (clipboard a) (bodyChildren a) (console a) (timers a) (nextTimer a)
        v (writes a).

Definition set_writes (v : list jsstring) (a : App) : App :=
  mkApp (ui a) (originalUrlInput a) (copyBtn a) (activeElement a) (selection a)
        (clipboard a) (bodyChildren a) (console a) (timers a) (nextTimer a)
        (timeout a) v.

(** *** Methods on the application state *)

Definition action (A : Type) : Type := App -> completion A * App.

Definition pure {A} (x : A) : action A := fun a => (Normal x, a).

Definition raise {A} (e : exn) : action A := fun a => (Throw e, a).

Definition modify (f : App -> App) : action unit := fun a => (Normal tt, f a).

Definition bindA {A B} (m : action A) (k : A -> action B) : action B :=
  fun a =>
    match m a with
    | (Normal x, a') => k x a'
    | (Throw e, a') => (Throw e, a')
    end.

Definition thenA {A B} (m : action A) (k : action B) : action B :=
  bindA m (fun _ => k).

(** [try { body } catch (error) { handler }] *)
Definition catchA {A} (body : action A) (handler : exn -> action A)
  : action A :=
  fun a =>
    match body a with
    | (Normal x, a') => (Normal x, a')
    | (Throw e, a') => handler e a'
    end.

(** [try { body } finally { cleanup }] *)
Definition finallyA {A} (body : action A) (cleanup : action unit)
  : action A :=
  fun a =>
    match body a with
    | (r, a') =>
        match cleanup a' with
        | (Normal _, a'') => (r, a'')
        | (Throw e, a'') => (Throw e, a'')
        end
    end.

(** A method of the page, run on the page of the application. *)
Definition onPage {A} (m : method A) : action A :=
  fun a => let (r, p) := m (ui a) in (r, set_ui p a).

(** The state an action leaves. *)
Definition exec {A} (m : action A) (a : App) : App := snd (m a).

Notation "m ;> k" := (thenA m k) (at level 61, right associativity).

(** [setTimeout(callback, delay)]: the new timer's id. *)
Definition setTimeout (cb : Callback) : action nat :=
  fun a =>
    (Normal (nextTimer a),
     set_nextTimer (S (nextTimer a))
                   (set_timers (timers a ++ [(nextTimer a, cb)]) a)).

(** [clearTimeout(id)]; [None] is [undefined]. *)
Definition clearTimeout (id : option nat) : action unit :=
  match id with
  | Some n =>
      modify (fun a =>
        set_timers (filter (fun t => negb (Nat.eqb (fst t) n)) (timers a)) a)
  | None => pure tt
  end.

Definition quote : ascii := ascii_of_nat 34.

(** The markup [showCopySuccess] puts on the button. *)
Definition copied_label : jsstring :=
  lit "<i class=" ++ [quote] ++ lit "fas fa-check me-2" ++ [quote]
  ++ lit "></i>Copied!".

Definition copy_failed_message : jsstring :=
  "Failed to copy to clipboard. Please copy manually.".

Definition copy_failed_log : jsstring := "Failed to copy to clipboard:".

(** What the browser decides when the class copies. *)
Inductive ExecResult : Type :=
| Copied                 (* [execCommand('copy')] returns true *)
| NotCopied              (* it returns false *)
| ExecThrows (e : exn).

Record Platform : Type := mkPlatform {
  clipboardApi    : bool;      (* [navigator.clipboard] is there *)
  isSecureContext : bool;
  execCommand     : ExecResult
}.

(** How far [handleCopy] got when it returns to its caller. *)
Inductive CopyProgress : Type :=
| Finished
| Awaiting.              (* suspended at [await writeText] *)

Definition showSuccessAlert : method unit :=
  update (fun p =>
    mkPage (cleanedUrlInput p) (resultsCard p) (errorAlert p)
           (classList_remove "d-none" (successAlert p))
           (errorMessage p) (removedParams p)).

Definition hideSuccessAlert : method unit :=
  update (fun p =>
    mkPage (cleanedUrlInput p) (resultsCard p) (errorAlert p)
           (classList_add "d-none" (successAlert p))
           (errorMessage p) (removedParams p)).

Section Methods.

Context {platform : URLParser}.

(** [this.originalUrlInput.focus()] and [.select()]. *)
Definition focusOriginalUrlInput : action unit :=
  modify (set_activeElement OriginalUrlInput).

Definition selectOriginalUrlInput : action unit :=
  modify (set_selection (Some OriginalUrlInput)).

(** The callback of [showCopySuccess], two seconds later. *)
Definition resetCopyButton (originalHTML : jsstring) : action unit :=
  modify (fun a =>
    set_copyBtn (mkButton (buttonClasses (copyBtn a)) originalHTML) a) ;>
  modify (fun a =>
    set_copyBtn (mkButton (tokens_remove "btn-copy-success"
                                         (buttonClasses (copyBtn a)))
                          (innerHTML (copyBtn a))) a) ;>
  onPage hideSuccessAlert.

Definition showCopySuccess : action unit :=
  onPage showSuccessAlert ;>
  (fun a =>
     let originalHTML := innerHTML (copyBtn a) in
     (modify (fun a =>
        set_copyBtn (mkButton (buttonClasses (copyBtn a)) copied_label) a) ;>
      modify (fun a =>
        set_copyBtn (mkButton (tokens_add "btn-copy-success"
                                          (buttonClasses (copyBtn a)))
                              (innerHTML (copyBtn a))) a) ;>
      bindA (setTimeout (ResetCopyButton originalHTML)) (fun _ => pure tt))
       a).

(** The text area is appended, focused and selected; [execCommand] copies
    what is selected, if it copies; the text area is removed whatever
    happened, and with it the focus goes to the body. *)
Definition fallbackCopyToClipboard (env : Platform) (text : jsstring)
  : action unit :=
  modify (fun a => set_bodyChildren (bodyChildren a ++ [text]) a) ;>
  modify (set_activeElement TextArea) ;>
  modify (set_selection (Some TextArea)) ;>
  finallyA
    (match execCommand env with
     | Copied => modify (set_clipboard text)
     | NotCopied => pure tt
     | ExecThrows e => raise e
     end)
    (modify (fun a => set_bodyChildren (removelast (bodyChildren a)) a) ;>
     modify (set_activeElement DocumentBody) ;>
     modify (set_selection None)).

(** The [try] block of [handleCopy] around one way of copying, and its
    [catch]. *)
Definition copyAttempt (copyStep : action unit) : action unit :=
  catchA
    (copyStep ;> showCopySuccess)
    (fun error =>
       modify (fun a => set_console (console a ++ [copy_failed_log]) a) ;>
       onPage (showError copy_failed_message)).

(** [handleCopy] up to the point where it returns to its caller: to the
    end, or to [await navigator.clipboard.writeText(cleanedUrl)]. *)
Definition handleCopy_begin (env : Platform) : action CopyProgress :=
  fun a =>
    let cleanedUrl := value (cleanedUrlInput (ui a)) in
    if negb (truthy cleanedUrl) then pure Finished a
    else if clipboardApi env && isSecureContext env then
      (modify (fun a => set_writes (writes a ++ [cleanedUrl]) a) ;>
       pure Awaiting) a
    else
      (copyAttempt (fallbackCopyToClipboard env cleanedUrl) ;>
       pure Finished) a.

(** [handleCopy] from the [await] on, once the write of [text] has settled:
    [None] when the promise is fulfilled, the reason when it is rejected. *)
Definition handleCopy_resume (text : jsstring) (outcome : option exn)
  : action unit :=
  copyAttempt
    (match outcome with
     | None => modify (set_clipboard text)
     | Some e => raise e
     end).

(** [handleCopy] with nothing happening while it waits. *)
Definition handleCopy (env : Platform) (outcome : option exn) : action unit :=
  bindA (handleCopy_begin env) (fun progress =>
    match progress with
    | Finished => pure tt
    | Awaiting =>
        fun a =>
          (modify (fun a => set_writes (removelast (writes a)) a) ;>
           handleCopy_resume (last (writes a) []) outcome) a
    end).

Definition handleClear : action unit :=
  modify (fun a => set_originalUrlInput (set_value [] (originalUrlInput a)) a) ;>
  onPage hideResults ;>
  onPage hideAlerts ;>
  focusOriginalUrlInput.

(** [handleKeyboard(event)]; the answer tells whether it called
    [event.preventDefault()]. *)
Definition handleKeyboard (ctrlKey metaKey : bool) (key : jsstring)
           (env : Platform) : action bool :=
  bindA
    (if (ctrlKey || metaKey) && str_eqb key "k"
     then focusOriginalUrlInput ;> selectOriginalUrlInput ;> pure true
     else pure false)
    (fun prevented1 =>
  (if str_eqb key "Escape" then handleClear else pure tt) ;>
  (fun a =>
     if (ctrlKey || metaKey) && str_eqb key "c"
        && is_cleanedUrlInput (activeElement a)
     then (handleCopy_begin env ;> pure true) a
     else pure prevented1 a)).

(** The listeners of the input field ([bindEvents],
    [setupRealTimeValidation]); the event's target is the field. *)
Definition inputListener : action unit :=
  fun a => onPage (handleUrlInput (value (originalUrlInput a))) a.

Definition debounceListener : action unit :=
  (fun a => clearTimeout (timeout a) a) ;>
  bindA (setTimeout ValidateField) (fun id => modify (set_timeout (Some id))).

Definition pasteListener : action unit :=
  bindA (setTimeout CheckPaste) (fun _ => pure tt).

(** A timer's callback, when the timer fires. *)
Definition fire (cb : Callback) : action unit :=
  match cb with
  | ValidateField =>
      fun a => onPage (realTimeValidation (value (originalUrlInput a))) a
  | CheckPaste =>
      fun a => onPage (handlePaste (value (originalUrlInput a))) a
  | ResetCopyButton originalHTML => resetCopyButton originalHTML
  end.

(** *** The application as a machine

    What happens to the application: the user and the browser raise events,
    each event runs its listeners to the end.  An exception a listener
    lets escape is reported by the browser and changes nothing more.
    A pending timer can fire at any time and a pending clipboard write can
    settle at any time: delays are left out, so the runs of a browser are
    among the runs of the machine. *)
Inductive Event : Type :=
| Typed (text : jsstring)     (* the field now holds [text]; [input] fires *)
| Pasted                      (* [paste] fires, before the text is in *)
| CopyClicked (env : Platform)
| ClearClicked
| KeyPressed (ctrlKey metaKey : bool) (key : jsstring) (env : Platform)
| FocusMoved (c : Control)
| TimerFired (id : nat)
| WriteSettled (n : nat) (outcome : option exn).

Fixpoint take_timer (id : nat) (l : list (nat * Callback))
  : option (Callback * list (nat * Callback)) :=
  match l with
  | [] => None
  | (n, cb) :: rest =>
      if Nat.eqb n id then Some (cb, rest)
      else
        match take_timer id rest with
        | Some (found, rest') => Some (found, (n, cb) :: rest')
        | None => None
        end
  end.

Fixpoint take_nth {A} (n : nat) (l : list A) : option (A * list A) :=
  match n, l with
  | _, [] => None
  | O, x :: rest => Some (x, rest)
  | S k, x :: rest =>
      match take_nth k rest with
      | Some (found, rest') => Some (found, x :: rest')
      | None => None
      end
  end.

Definition step (e : Event) (a : App) : App :=
  match e with
  | Typed text =>
      exec debounceListener
           (exec inputListener
                 (set_originalUrlInput (set_value text (originalUrlInput a))
                                       a))
  | Pasted => exec pasteListener a
  | CopyClicked env => exec (handleCopy_begin env) a
  | ClearClicked => exec handleClear a
  | KeyPressed ctrlKey metaKey key env =>
      exec (handleKeyboard ctrlKey metaKey key env) a
  | FocusMoved c => set_activeElement c a
  | TimerFired id =>
      match take_timer id (timers a) with
      | Some (cb, rest) => exec (fire cb) (set_timers rest a)
      | None => a
      end
  | WriteSettled n outcome =>
      match take_nth n (writes a) with
      | Some (text, rest) =>
          exec (handleCopy_resume text outcome) (set_writes rest a)
      | None => a
      end
  end.

Definition run (events : list Event) (a : App) : App :=
  fold_left (fun a e => step e a) events a.

End Methods.

(** *** What the statements about the machine speak of *)

(** The application as the constructor leaves it: no timer set, the
    [timeout] variable undefined. *)
Definition started (a : App) : Prop :=
  timers a = [] /\ timeout a = None.

(** The debounced validations that wait for their timer. *)
Definition pending_validations (a : App) : nat :=
  List.length (filter (fun t => is_ValidateField (snd t)) (timers a)).

(** A callback of [showCopySuccess] waits for its timer. *)
Definition reset_pending (a : App) : Prop :=
  exists id originalHTML, In (id, ResetCopyButton originalHTML) (timers a).

Definition success_alert_shown (a : App) : Prop :=
  has_class "d-none" (successAlert (ui a)) = false.

(** An error is displayed next to a result only if it is the copy error. *)
Definition error_beside_results_is_copy_error (p : Page) : Prop :=
  has_class "d-none" (errorAlert p) = false ->
  has_class "d-none" (resultsCard p) = false ->
  textContent (errorMessage p) = copy_failed_message.

(** Timer ids are fresh and unique, and [timeout] names the one debounced
    validation that can be pending. *)
Definition timers_consistent (a : App) : Prop :=
  (forall id cb, In (id, cb) (timers a) -> id < nextTimer a)
  /\ NoDup (map fst (timers a))
  /\ (forall id, In (id, ValidateField) (timers a) -> timeout a = Some id)
  /\ (forall id, timeout a = Some id ->
                 id < nextTimer a
                 /\ forall cb, In (id, cb) (timers a) -> cb = ValidateField).

(** What a timer's callback does to the page, [field] being the value of
    the input field when it runs. *)
Definition callback_on_page {platform : URLParser} (cb : Callback)
           (field : jsstring) (p : Page) : Page :=
  match cb with
  | ValidateField => snd (realTimeValidation field p)
  | CheckPaste => snd (handlePaste field p)
  | ResetCopyButton _ => snd (hideSuccessAlert p)
  end.

(** What one listener or callback does to the page and to the timers. *)
Inductive transition {platform : URLParser} (a a' : App) : Prop :=
| Kept :
    ui a' = ui a -> timers a' = timers a ->
    nextTimer a' = nextTimer a -> timeout a' = timeout a -> transition a a'
| CopySucceeded (originalHTML : jsstring) :
    ui a' = snd (showSuccessAlert (ui a)) ->
    timers a' = timers a ++ [(nextTimer a, ResetCopyButton originalHTML)] ->
    nextTimer a' = S (nextTimer a) -> timeout a' = timeout a ->
    transition a a'
| CopyFailed :
    ui a' = snd (showError copy_failed_message (ui a)) ->
    timers a' = timers a ->
    nextTimer a' = nextTimer a -> timeout a' = timeout a -> transition a a'
| Cleared :
    ui a' = snd (hideAlerts (snd (hideResults (ui a)))) ->
    timers a' = timers a ->
    nextTimer a' = nextTimer a -> timeout a' = timeout a -> transition a a'
| Debounced (field : jsstring) :
    ui a' = snd (handleUrlInput field (ui a)) ->
    timers a'
    = match timeout a with
      | Some n => filter (fun t => negb (Nat.eqb (fst t) n)) (timers a)
      | None => timers a
      end ++ [(nextTimer a, ValidateField)] ->
    nextTimer a' = S (nextTimer a) ->
    timeout a' = Some (nextTimer a) -> transition a a'
| PasteScheduled :
    ui a' = ui a ->
    timers a' = timers a ++ [(nextTimer a, CheckPaste)] ->
    nextTimer a' = S (nextTimer a) -> timeout a' = timeout a ->
    transition a a'
| Fired (id : nat) (cb : Callback) (before after : list (nat * Callback))
        (field : jsstring) :
    timers a = before ++ (id, cb) :: after ->
    ui a' = callback_on_page cb field (ui a) ->
    timers a' = before ++ after ->
    nextTimer a' = nextTimer a -> timeout a' = timeout a -> transition a a'.

(** An application state to run the machine on: nothing typed yet, results
    and alerts hidden. *)
Definition hidden_element : Element := mkElement [lit "d-none"] [] [].

Definition example_app : App :=
  mkApp (mkPage Inputs.empty_element hidden_element hidden_element
                hidden_element Inputs.empty_element Inputs.empty_element)
        Inputs.empty_element
        (mkButton [lit "btn"] "Copy")
        DocumentBody None [] [] [] [] 0 None [].

(** The same with a result on display. *)
Definition example_result : App :=
  set_ui (mkPage (mkElement [] "https://www.instagram.com/p/X/" [])
                 Inputs.empty_element hidden_element hidden_element
                 Inputs.empty_element
                 (mkElement [] [] "URL was already clean"))
         example_app.

(** Browsers without the Clipboard API: [execCommand] copies, returns
    false, throws. *)
Definition old_browser : Platform := mkPlatform false false Copied.

Definition deaf_browser : Platform := mkPlatform false false NotCopied.

Definition failing_browser : Platform :=
  mkPlatform false false (ExecThrows TypeError).

End Shell.

(** * Properties *)

(** ** Occurrences of a separator *)

Lemma ascii_eqb_eq (a b : ascii) : ascii_eqb a b = true <-> a = b.
Proof. apply Ascii.eqb_eq. Qed.

Lemma ascii_eqb_refl (a : ascii) : ascii_eqb a a = true.
Proof. apply Ascii.eqb_refl. Qed.

Lemma str_eqb_eq (a b : jsstring) : str_eqb a b = true <-> a = b.
Proof.
  revert b; induction a as [|x a IH]; intros [|y b]; simpl;
    try (split; [discriminate | discriminate]); try tauto.
  rewrite andb_true_iff, ascii_eqb_eq, IH.
  split; [intros [-> ->]; reflexivity | intros [= -> ->]; auto].
Qed.

Lemma str_eqb_refl (a : jsstring) : str_eqb a a = true.
Proof. apply str_eqb_eq; reflexivity. Qed.

Lemma starts_with_app (p s : jsstring) :
  starts_with p s = true <-> exists r, s = p ++ r.
Proof.
  revert s; induction p as [|x p IH]; intros s; simpl.
  - split; [exists s; reflexivity | reflexivity].
  - destruct s as [|y s].
    + split; [discriminate | intros [r Hr]; discriminate].
    + rewrite andb_true_iff, ascii_eqb_eq, IH. split.
      * intros [-> [r ->]]. exists r; reflexivity.
      * intros [r [= -> ->]]. split; [reflexivity | exists r; reflexivity].
Qed.

Lemma starts_with_skipn (p s : jsstring) :
  starts_with p s = true -> s = p ++ skipn (List.length p) s.
Proof.
  intros H. apply starts_with_app in H as [r ->].
  rewrite skipn_app, skipn_all, Nat.sub_diag. reflexivity.
Qed.

Lemma cut_some (sep s pre rest : jsstring) :
  cut sep s = Some (pre, rest) <-> first_occurrence sep s pre rest.
Proof.
  revert pre rest; induction s as [|c t IH]; intros pre rest.
  - simpl. destruct (starts_with sep []) eqn:E.
    + destruct sep; [|discriminate]. simpl. split.
      * intros [= <- <-]. split; [reflexivity | intros; simpl; lia].
      * intros [H _]. destruct pre; [|discriminate]. simpl in H. now subst.
    + split; [discriminate|].
      intros [H _]. symmetry in H. apply app_eq_nil in H as [-> H].
      apply app_eq_nil in H as [-> ->]. discriminate.
  - cbn [cut]. destruct (starts_with sep (c :: t)) eqn:E.
    + pose proof (starts_with_skipn _ _ E) as Hs. split.
      * intros [= <- <-]. split; [exact Hs | intros; simpl; lia].
      * intros [H Hmin]. specialize (Hmin [] _ Hs). simpl in Hmin.
        destruct pre; [|simpl in Hmin; lia]. simpl in H.
        rewrite H, skipn_app, skipn_all, Nat.sub_diag. reflexivity.
    + destruct (cut sep t) as [[a b]|] eqn:Ec.
      * destruct (proj1 (IH a b) eq_refl) as [Ht Hmin]. split.
        -- intros [= <- <-]. split; [simpl; now rewrite Ht|].
           intros [|y pre'] rest' H.
           ++ simpl in H. assert (starts_with sep (c :: t) = true)
                by (apply starts_with_app; eauto). congruence.
           ++ simpl in H. injection H as _ H. simpl. apply le_n_S. eauto.
        -- intros [H Hmin']. destruct pre as [|y pre].
           ++ simpl in H. assert (starts_with sep (c :: t) = true)
                by (apply starts_with_app; eauto). congruence.
           ++ simpl in H. injection H as <- H.
              assert (Hf : first_occurrence sep t pre rest).
              { split; [exact H|]. intros pre' rest' H'.
                specialize (Hmin' (c :: pre') rest'). simpl in Hmin'.
                apply le_S_n, Hmin'. now rewrite H'. }
              apply IH in Hf. injection Hf as -> ->. reflexivity.
      * split; [discriminate|]. intros [H Hmin]. destruct pre as [|y pre].
        -- simpl in H. assert (starts_with sep (c :: t) = true)
             by (apply starts_with_app; eauto). congruence.
        -- simpl in H. injection H as <- H.
           assert (Hf : first_occurrence sep t pre rest).
           { split; [exact H|]. intros pre' rest' H'.
             specialize (Hmin (c :: pre') rest'). simpl in Hmin.
             apply le_S_n, Hmin. now rewrite H'. }
           apply IH in Hf. congruence.
Qed.

Lemma cut_none (sep s : jsstring) : cut sep s = None <-> ~ occurs sep s.
Proof.
  induction s as [|c t IH].
  - simpl. destruct (starts_with sep []) eqn:E.
    + split; [discriminate|]. intros H. exfalso. apply H.
      apply starts_with_app in E as [r Hr]. exists [], r. exact Hr.
    + split; [|reflexivity]. intros _ (pre & rest & H).
      symmetry in H. apply app_eq_nil in H as [-> H].
      apply app_eq_nil in H as [-> ->]. discriminate.
  - cbn [cut]. destruct (starts_with sep (c :: t)) eqn:E.
    + split; [discriminate|]. intros H. exfalso. apply H.
      apply starts_with_app in E as [r Hr]. exists [], r. exact Hr.
    + destruct (cut sep t) as [[a b]|] eqn:Ec.
      * split; [discriminate|]. intros H. exfalso. apply H.
        apply cut_some in Ec as [-> _]. exists (c :: a), b. reflexivity.
      * split; [|reflexivity]. intros _ (pre & rest & H).
        destruct pre as [|y pre].
        -- simpl in H. assert (starts_with sep (c :: t) = true)
             by (apply starts_with_app; eauto). congruence.
        -- simpl in H. injection H as _ H.
           apply (proj1 IH eq_refl). exists pre, rest. exact H.
Qed.

Lemma includes_cut (s sep : jsstring) :
  includes s sep = match cut sep s with Some _ => true | None => false end.
Proof.
  induction s as [|c t IH]; cbn [includes cut].
  - destruct (starts_with sep []); reflexivity.
  - destruct (starts_with sep (c :: t)); simpl; [reflexivity|].
    rewrite IH. destruct (cut sep t) as [[a b]|]; reflexivity.
Qed.

Lemma split_scan_skip (sep : jsstring) (k : nat) (cur s : jsstring) :
  split_scan sep k cur s = split_scan sep 0 cur (skipn k s).
Proof.
  revert k; induction s as [|c t IH]; intros [|k]; simpl; auto.
Qed.

Lemma split_scan_cut (sep cur s : jsstring) :
  sep <> [] ->
  split_scan sep 0 cur s =
  match cut sep s with
  | Some (pre, rest) => (cur ++ pre) :: split_scan sep 0 [] rest
  | None => [cur ++ s]
  end.
Proof.
  intros Hsep. revert cur; induction s as [|c t IH]; intros cur.
  - simpl. destruct sep; [congruence|]. simpl. now rewrite app_nil_r.
  - cbn [split_scan cut]. destruct (starts_with sep (c :: t)) eqn:E.
    + rewrite app_nil_r, split_scan_skip. destruct sep; [congruence|].
      simpl. now rewrite Nat.sub_0_r.
    + rewrite IH. destruct (cut sep t) as [[a b]|];
        now rewrite <- app_assoc.
Qed.

(** [split] by the first occurrence. *)
Lemma split_cut (s sep : jsstring) :
  sep <> [] ->
  split s sep =
  match cut sep s with
  | Some (pre, rest) => pre :: split rest sep
  | None => [s]
  end.
Proof.
  intros Hsep. unfold split. destruct sep as [|x sep]; [congruence|].
  now rewrite split_scan_cut.
Qed.

Lemma truncated_at_cut (sep s : jsstring) :
  truncated_at sep s
    match cut sep s with Some (pre, _) => pre | None => s end.
Proof.
  destruct (cut sep s) as [[pre rest]|] eqn:E.
  - left. exists rest. now apply cut_some.
  - right. split; [now apply cut_none | reflexivity].
Qed.

Lemma slash_question_nonempty : lit "/?" <> [].
Proof. discriminate. Qed.

(** ** What the methods compute *)

Lemma index_split_0 (s sep : jsstring) :
  sep <> [] -> index (split s sep) 0 = Some (before_first sep s).
Proof.
  intros H. rewrite split_cut by exact H. unfold before_first.
  destruct (cut sep s) as [[a b]|]; reflexivity.
Qed.

Lemma index_split_1 (s sep : jsstring) :
  sep <> [] -> includes s sep = true ->
  index (split s sep) 1 = Some (second_piece sep s).
Proof.
  intros H Hi. rewrite includes_cut in Hi. rewrite split_cut by exact H.
  unfold second_piece. destruct (cut sep s) as [[a b]|]; [|discriminate].
  simpl. apply (index_split_0 b _ H).
Qed.

Lemma second_piece_absent (s sep : jsstring) :
  includes s sep = false -> second_piece sep s = [].
Proof.
  rewrite includes_cut. unfold second_piece.
  destruct (cut sep s) as [[a b]|]; [discriminate | reflexivity].
Qed.

Lemma truthy_length (s : jsstring) : (0 <? List.length s)%nat = truthy s.
Proof. destruct s; reflexivity. Qed.

Section Evaluation.

Context {platform : URLParser}.

Lemma isValidInstagramUrl_parsed (s : jsstring) (u : URL) :
  parse_url s = Some u ->
  isValidInstagramUrl s
  = Normal (array_includes validDomains (toLowerCase (hostname u))).
Proof.
  intros H. unfold isValidInstagramUrl, new_URL. now rewrite H.
Qed.

Lemma isValidInstagramUrl_unparsed (s : jsstring) :
  parse_url s = None -> isValidInstagramUrl s = Normal false.
Proof.
  intros H. unfold isValidInstagramUrl, new_URL. now rewrite H.
Qed.

Lemma cleanInstagramUrl_parsed (s : jsstring) (u : URL) :
  parse_url s = Some u ->
  cleanInstagramUrl s
  = Normal (mkResult
              (protocol u ++ lit "//" ++ hostname u
               ++ before_first "/?" (pathname u))
              (removed_text (second_piece "/?" s))
              (truthy (second_piece "/?" s))).
Proof.
  intros H. unfold cleanInstagramUrl, new_URL. rewrite H. cbn [bind].
  rewrite (index_split_0 _ _ slash_question_nonempty). cbn [to_text].
  destruct (includes s "/?") eqn:E.
  - rewrite (index_split_1 _ _ slash_question_nonempty E).
    cbn [length_of bind try_catch truthy_value to_text].
    now rewrite truthy_length.
  - rewrite (second_piece_absent _ _ E). reflexivity.
Qed.

Lemma cleanInstagramUrl_unparsed (s : jsstring) :
  parse_url s = None ->
  cleanInstagramUrl s = Throw (Error "Failed to parse URL").
Proof.
  intros H. unfold cleanInstagramUrl, new_URL. now rewrite H.
Qed.

Lemma valid_parses (s : jsstring) :
  isValidInstagramUrl s = Normal true ->
  exists u, parse_url s = Some u /\
            array_includes validDomains (toLowerCase (hostname u)) = true.
Proof.
  intros H. destruct (parse_url s) as [u|] eqn:E.
  - exists u. rewrite (isValidInstagramUrl_parsed _ _ E) in H.
    split; [reflexivity | congruence].
  - rewrite (isValidInstagramUrl_unparsed _ E) in H. discriminate.
Qed.

End Evaluation.

Lemma array_includes_In (a : list jsstring) (x : jsstring) :
  array_includes a x = true <-> In x a.
Proof.
  unfold array_includes. rewrite existsb_exists. split.
  - intros (y & Hy & E). apply str_eqb_eq in E. now subst.
  - intros H. exists x. split; [exact H | apply str_eqb_refl].
Qed.

Lemma has_class_add (t : jsstring) (e : Element) :
  has_class t (classList_add t e) = true.
Proof.
  unfold classList_add. destruct (has_class t e) eqn:E; [exact E|].
  unfold has_class. simpl. rewrite existsb_app. simpl.
  now rewrite str_eqb_refl, orb_true_r.
Qed.

Lemma has_class_remove (t : jsstring) (e : Element) :
  has_class t (classList_remove t e) = false.
Proof.
  unfold has_class, classList_remove. simpl.
  induction (classList e) as [|x l IH]; simpl; [reflexivity|].
  destruct (str_eqb t x) eqn:E; simpl; [exact IH|]. now rewrite E.
Qed.

(** ** The reference parser conforms *)

Module WhatwgFacts.

Import NormalForm.

Import Whatwg.

Lemma all_chars_complete (c : ascii) : In c all_chars.
Proof.
  unfold all_chars. rewrite <- (ascii_nat_embedding c).
  apply in_map, in_seq. pose proof (nat_ascii_bounded c). lia.
Qed.

Lemma char_fact (P : ascii -> bool) :
  forallb P all_chars = true -> forall c, P c = true.
Proof.
  intros H c. rewrite forallb_forall in H. apply H, all_chars_complete.
Qed.

Ltac by_chars :=
  match goal with
  | |- forall c : ascii, @?P c = true =>
      apply (char_fact P); vm_compute; reflexivity
  end.

Lemma forallb_impl {A} (p q : A -> bool) (l : list A) :
  (forall x, p x = true -> q x = true) ->
  forallb p l = true -> forallb q l = true.
Proof.
  intros H. rewrite !forallb_forall. auto.
Qed.

Lemma not_existsb_forallb {A} (p : A -> bool) (l : list A) :
  existsb p l = false <-> forallb (fun x => negb (p x)) l = true.
Proof.
  induction l as [|x l IH]; simpl; [tauto|].
  rewrite orb_false_iff, andb_true_iff, negb_true_iff, IH. tauto.
Qed.

Lemma drop_while_id (p : ascii -> bool) (s : jsstring) :
  match s with c :: _ => p c = false | [] => True end ->
  drop_while p s = s.
Proof. destruct s as [|c t]; simpl; [reflexivity|]. now intros ->. Qed.

Lemma char_impl (p q : ascii -> bool) :
  forallb (fun c => implb (p c) (q c)) all_chars = true ->
  forall c, p c = true -> q c = true.
Proof.
  intros H c Hp. pose proof (char_fact _ H c) as Hc. simpl in Hc.
  now rewrite Hp in Hc.
Qed.

Ltac chars := apply char_impl; vm_compute; reflexivity.

(** *** Scheme *)

Lemma scheme_char_lower c :
  is_scheme_char c = true -> scheme_canon_char (ascii_lower c) = true.
Proof. revert c. chars. Qed.

Lemma alpha_lower c : is_alpha c = true -> is_lower (ascii_lower c) = true.
Proof. revert c. chars. Qed.

Lemma scheme_canon_char_fixed c :
  scheme_canon_char c = true ->
  is_scheme_char c && ascii_eqb (ascii_lower c) c = true.
Proof. revert c. chars. Qed.

Lemma lower_is_alpha_fixed c :
  is_lower c = true ->
  is_alpha c && ascii_eqb (ascii_lower c) c && scheme_canon_char c = true.
Proof. revert c. chars. Qed.

Lemma scheme_state_canon buffer s scheme rest :
  scheme_state buffer s = Some (scheme, rest) ->
  exists more, scheme = buffer ++ more
               /\ forallb scheme_canon_char more = true.
Proof.
  revert buffer; induction s as [|c t IH]; intros buffer;
    cbn [scheme_state]; [discriminate|].
  destruct (is_scheme_char c) eqn:E.
  - intros H. apply IH in H as (more & -> & Hm).
    exists (ascii_lower c :: more). rewrite <- app_assoc. split; [reflexivity|].
    simpl. now rewrite (scheme_char_lower _ E).
  - destruct (is_char ":" c); [|discriminate]. intros [= <- <-].
    exists []. now rewrite app_nil_r.
Qed.

Lemma scheme_start_canon s scheme rest :
  scheme_start_state s = Some (scheme, rest) -> scheme_canon scheme = true.
Proof.
  destruct s as [|c t]; cbn [scheme_start_state]; [discriminate|].
  destruct (is_alpha c) eqn:E; [|discriminate]. intros H.
  apply scheme_state_canon in H as (more & -> & Hm). cbn [app scheme_canon].
  now rewrite (alpha_lower _ E).
Qed.

Lemma scheme_state_reparse buffer more rest :
  forallb scheme_canon_char more = true ->
  scheme_state buffer (more ++ ":"%char :: rest) = Some (buffer ++ more, rest).
Proof.
  revert buffer; induction more as [|c t IH]; intros buffer;
    cbn [app scheme_state forallb].
  - intros _. rewrite app_nil_r. reflexivity.
  - rewrite andb_true_iff. intros [Hc Ht].
    apply scheme_canon_char_fixed in Hc. apply andb_true_iff in Hc as [-> Hc].
    apply ascii_eqb_eq in Hc. rewrite Hc, IH by exact Ht.
    now rewrite <- app_assoc.
Qed.

Lemma scheme_start_reparse scheme rest :
  scheme_canon scheme = true ->
  scheme_start_state (scheme ++ ":"%char :: rest) = Some (scheme, rest).
Proof.
  destruct scheme as [|c t]; cbn [scheme_canon app scheme_start_state];
    [discriminate|].
  rewrite andb_true_iff. intros [Hc Ht].
  apply lower_is_alpha_fixed in Hc.
  apply andb_true_iff in Hc as [Hc _]. apply andb_true_iff in Hc as [-> Hc].
  apply ascii_eqb_eq in Hc. rewrite Hc.
  apply (scheme_state_reparse [c] t rest Ht).
Qed.

(** *** Host *)

Lemma lower_keeps_ascii c : is_ascii c = true -> is_ascii (ascii_lower c) = true.
Proof. revert c. chars. Qed.

Lemma lower_not_upper c : negb (is_upper (ascii_lower c)) = true.
Proof. revert c. by_chars. Qed.

Lemma not_upper_fixed c :
  negb (is_upper c) = true -> ascii_eqb (ascii_lower c) c = true.
Proof. revert c. chars. Qed.

Lemma domain_char_safe c :
  is_ascii c && negb (forbidden_domain c) = true ->
  host_safe c && negb (is_char "%" c) = true.
Proof. revert c. chars. Qed.

Lemma opaque_char_encoded c :
  negb (forbidden_host c) = true ->
  forallb host_safe (utf8_percent_encode c0_control_set c) = true.
Proof. revert c. chars. Qed.

Lemma host_safe_not_c0 c :
  host_safe c = true ->
  ascii_eqb (hd c (utf8_percent_encode c0_control_set c)) c
  && (List.length (utf8_percent_encode c0_control_set c) =? 1)%nat = true.
Proof. revert c. chars. Qed.

Lemma map_fixed {A} (f : A -> A) (l : list A) :
  Forall (fun x => f x = x) l -> map f l = l.
Proof. induction 1; simpl; congruence. Qed.

Lemma forallb_Forall {A} (p : A -> bool) (l : list A) :
  forallb p l = true <-> Forall (fun x => p x = true) l.
Proof. rewrite forallb_forall, Forall_forall. tauto. Qed.

Lemma forallb_map {A B} (f : A -> B) (p : B -> bool) (l : list A) :
  forallb p (map f l) = forallb (fun x => p (f x)) l.
Proof. induction l; simpl; congruence. Qed.

Lemma forallb_flat_map {A B} (f : A -> list B) (p : B -> bool) (l : list A) :
  forallb p (flat_map f l) = forallb (fun x => forallb p (f x)) l.
Proof.
  induction l as [|x l IH]; simpl; [reflexivity|].
  now rewrite forallb_app, IH.
Qed.

Lemma forallb_and {A} (p q : A -> bool) (l : list A) :
  forallb (fun x => p x && q x) l = forallb p l && forallb q l.
Proof.
  induction l as [|x l IH]; simpl; [reflexivity|]. rewrite IH.
  destruct (p x), (q x), (forallb p l); reflexivity.
Qed.

Lemma percent_decode_fixed (d : jsstring) :
  forallb (fun c => negb (is_char "%" c)) d = true -> percent_decode d = d.
Proof.
  unfold percent_decode. induction d as [|c t IH];
    cbn [percent_decode_from forallb]; [reflexivity|].
  rewrite andb_true_iff, negb_true_iff. intros [Hc Ht].
  rewrite Hc, IH by exact Ht. cbn [andb]. destruct t as [|h [|l t']];
    reflexivity.
Qed.

Lemma ascii_lower_fixed (d : jsstring) :
  forallb (fun c => negb (is_upper c)) d = true -> map ascii_lower d = d.
Proof.
  intros H. apply map_fixed. apply forallb_Forall in H.
  eapply Forall_impl; [|exact H]. intros c Hc.
  now apply ascii_eqb_eq, not_upper_fixed.
Qed.

Lemma domain_canon_safe d :
  domain_canon d = true ->
  forallb host_safe d = true
  /\ forallb (fun c => negb (is_char "%" c)) d = true.
Proof.
  unfold domain_canon. rewrite !andb_true_iff, negb_true_iff.
  intros [[[[Ha Hf] _] _] _].
  apply not_existsb_forallb in Hf.
  assert (H : forallb (fun c => is_ascii c && negb (forbidden_domain c)) d
              = true) by now rewrite forallb_and, Ha, Hf.
  apply (forallb_impl _ _ _ domain_char_safe) in H.
  rewrite forallb_and in H. now apply andb_true_iff in H.
Qed.

Lemma host_canon_safe special h :
  host_canon special h = true -> forallb host_safe h = true.
Proof.
  destruct special; cbn [host_canon]; [|tauto].
  intros H. now apply domain_canon_safe in H.
Qed.

Lemma domain_parser_canon input d :
  domain_parser input = Parsed d -> domain_canon d = true.
Proof.
  unfold domain_parser.
  destruct (forallb is_ascii input); [|discriminate]. cbn [negb].
  destruct (forallb is_ascii (percent_decode input)) eqn:Ha;
    [|discriminate]. cbn [negb].
  destruct (has_punycode_label _) eqn:Hp; [discriminate|].
  destruct (existsb forbidden_domain _) eqn:Hf; [discriminate|].
  destruct (ends_in_a_number _) eqn:Hn; [discriminate|].
  intros [= <-]. unfold domain_canon. rewrite Hp, Hf, Hn.
  rewrite !forallb_map, !andb_true_r. apply andb_true_iff. split.
  - revert Ha. apply forallb_impl. exact lower_keeps_ascii.
  - apply forallb_forall. intros c _. apply lower_not_upper.
Qed.

Lemma domain_canon_reparse d :
  domain_canon d = true -> domain_parser d = Parsed d.
Proof.
  intros H. destruct (domain_canon_safe _ H) as [_ Hpct].
  unfold domain_canon in H. rewrite !andb_true_iff, !negb_true_iff in H.
  destruct H as [[[[Ha Hf] Hu] Hp] Hn].
  unfold domain_parser.
  rewrite (percent_decode_fixed _ Hpct), (ascii_lower_fixed _ Hu).
  now rewrite Ha, Hp, Hf, Hn.
Qed.

Lemma opaque_parser_canon input h :
  opaque_host_parser input = Parsed h -> opaque_canon h = true.
Proof.
  unfold opaque_host_parser.
  destruct (existsb forbidden_host input) eqn:Hf; [discriminate|].
  intros [= <-]. unfold opaque_canon, encode_string.
  rewrite forallb_flat_map. apply not_existsb_forallb in Hf.
  revert Hf. apply forallb_impl. exact opaque_char_encoded.
Qed.

Lemma encode_c0_fixed h :
  forallb host_safe h = true -> encode_string c0_control_set h = h.
Proof.
  unfold encode_string. induction h as [|c t IH]; cbn [flat_map forallb];
    [reflexivity|].
  rewrite andb_true_iff. intros [Hc Ht]. rewrite IH by exact Ht.
  apply host_safe_not_c0 in Hc. apply andb_true_iff in Hc as [Hh Hl].
  destruct (utf8_percent_encode c0_control_set c) as [|x [|y l]];
    try discriminate.
  cbn [hd] in Hh. apply ascii_eqb_eq in Hh. now subst.
Qed.

Lemma host_safe_forbidden h :
  forallb host_safe h = true -> existsb forbidden_host h = false.
Proof.
  intros H. apply not_existsb_forallb. revert H. apply forallb_impl.
  intros c Hc. unfold host_safe in Hc. now apply andb_true_iff in Hc.
Qed.

Lemma opaque_canon_reparse h :
  opaque_canon h = true -> opaque_host_parser h = Parsed h.
Proof.
  unfold opaque_canon, opaque_host_parser. intros H.
  now rewrite (host_safe_forbidden _ H), (encode_c0_fixed _ H).
Qed.

Lemma host_safe_not_bracket c :
  host_safe c = true -> negb (is_char "[" c) = true.
Proof. revert c. chars. Qed.

Lemma host_safe_no_bracket h :
  forallb host_safe h = true -> starts_with "[" h = false.
Proof.
  destruct h as [|c t]; [reflexivity|]. cbn [forallb].
  rewrite andb_true_iff. intros [Hc _].
  apply host_safe_not_bracket, negb_true_iff in Hc.
  change (is_char "[" c) with (ascii_eqb "[" c) in Hc.
  change (starts_with "[" (c :: t))
    with (ascii_eqb "[" c && starts_with [] t).
  now rewrite Hc.
Qed.

Lemma host_parser_canon special input h :
  host_parser (negb special) input = Parsed h -> host_canon special h = true.
Proof.
  unfold host_parser. destruct (starts_with "[" input).
  - destruct (is_char "]" _); discriminate.
  - destruct special; cbn [negb host_canon].
    + apply domain_parser_canon.
    + apply opaque_parser_canon.
Qed.

Lemma host_canon_reparse special h :
  host_canon special h = true -> host_parser (negb special) h = Parsed h.
Proof.
  intros H. unfold host_parser.
  rewrite (host_safe_no_bracket _ (host_canon_safe _ _ H)).
  destruct special; cbn [negb host_canon] in *.
  - now apply domain_canon_reparse.
  - now apply opaque_canon_reparse.
Qed.

(** *** Path *)

Lemma path_char_encoded special c :
  negb (one_of "?#" c) && negb (path_separator special c) = true ->
  forallb (path_char special) (utf8_percent_encode path_set c) = true.
Proof. destruct special; revert c; chars. Qed.

Lemma path_char_plain special c :
  path_char special c = true ->
  negb (one_of "?#" c) && negb (path_separator special c)
  && ascii_eqb (hd c (utf8_percent_encode path_set c)) c
  && (List.length (utf8_percent_encode path_set c) =? 1)%nat = true.
Proof. destruct special; revert c; chars. Qed.

Lemma path_at_end_canon special path buffer :
  path_canon special path = true ->
  forallb (path_char special) buffer = true ->
  path_canon special (path_at_end path buffer) = true
  /\ path_at_end path buffer <> [].
Proof.
  unfold path_canon. intros Hp Hb. unfold path_at_end.
  assert (Ht : forallb (segment_canon special) (tl path) = true).
  { destruct path; [reflexivity|]. cbn [forallb tl] in *.
    now apply andb_true_iff in Hp. }
  destruct (is_double_dot buffer) eqn:Ed;
    [|destruct (is_single_dot buffer) eqn:Es];
    (split; [|discriminate]); cbn [forallb].
  - exact Ht.
  - exact Hp.
  - rewrite Hp, andb_true_r. unfold segment_canon. now rewrite Hb, Ed, Es.
Qed.

Lemma path_at_slash_canon special path buffer :
  path_canon special path = true ->
  forallb (path_char special) buffer = true ->
  path_canon special (path_at_slash path buffer) = true.
Proof.
  unfold path_canon. intros Hp Hb. unfold path_at_slash.
  destruct (is_double_dot buffer) eqn:Ed;
    [|destruct (is_single_dot buffer) eqn:Es].
  - destruct path; [reflexivity|]. cbn [forallb tl] in *.
    now apply andb_true_iff in Hp.
  - exact Hp.
  - cbn [forallb]. rewrite Hp, andb_true_r. unfold segment_canon.
    now rewrite Hb, Ed, Es.
Qed.

Lemma path_state_canon special s : forall path buffer path' rest,
  path_state special path buffer s = (path', rest) ->
  path_canon special path = true ->
  forallb (path_char special) buffer = true ->
  path_canon special path' = true /\ path' <> [] /\ after_path rest.
Proof.
  induction s as [|c t IH]; intros path buffer path' rest;
    cbn [path_state].
  - intros [= <- <-] Hp Hb.
    destruct (path_at_end_canon _ _ _ Hp Hb). repeat split; assumption.
  - destruct (one_of "?#" c) eqn:Eq.
    + intros [= <- <-] Hp Hb.
      destruct (path_at_end_canon _ _ _ Hp Hb). repeat split; assumption.
    + destruct (path_separator special c) eqn:Es; intros H Hp Hb.
      * apply (IH _ _ _ _ H); [|reflexivity].
        now apply path_at_slash_canon.
      * apply (IH _ _ _ _ H Hp). rewrite forallb_app, Hb.
        apply path_char_encoded. now rewrite Eq, Es.
Qed.

Lemma serialize_path_join path : serialize_path path = join_segments (rev path).
Proof.
  unfold serialize_path. induction (rev path) as [|x l IH];
    cbn [flat_map join_segments app]; [reflexivity|]. now rewrite IH.
Qed.

Lemma path_state_segment special more stack : forall segment buffer,
  forallb (path_char special) segment = true ->
  path_state special stack buffer (segment ++ more)
  = path_state special stack (buffer ++ segment) more.
Proof.
  induction segment as [|c t IH]; intros buffer H; cbn [app].
  - now rewrite app_nil_r.
  - cbn [forallb] in H. apply andb_true_iff in H as [Hc Ht].
    apply path_char_plain in Hc. rewrite !andb_true_iff in Hc.
    destruct Hc as [[[Hq Hs] Hh] Hl].
    apply negb_true_iff in Hq, Hs. cbn [path_state]. rewrite Hq, Hs.
    destruct (utf8_percent_encode path_set c) as [|x [|y l]];
      try discriminate.
    cbn [hd] in Hh. apply ascii_eqb_eq in Hh. subst x.
    rewrite IH by (auto). now rewrite <- app_assoc.
Qed.

Lemma path_state_reparse special segments : forall stack buffer,
  path_canon special segments = true ->
  segment_canon special buffer = true ->
  path_state special stack buffer (join_segments segments)
  = (rev segments ++ buffer :: stack, []).
Proof.
  induction segments as [|segment more IH]; intros stack buffer Hp Hb;
    unfold segment_canon in Hb; rewrite !andb_true_iff, !negb_true_iff in Hb;
    destruct Hb as [[Hc Hs] Hd]; cbn [join_segments].
  - cbn [path_state rev app]. unfold path_at_end. now rewrite Hd, Hs.
  - cbn [path_canon forallb] in Hp. apply andb_true_iff in Hp as [Hseg Hp].
    cbn [path_state].
    replace (one_of "?#" "/") with false by reflexivity.
    replace (path_separator special "/") with true
      by (destruct special; reflexivity).
    unfold path_at_slash. rewrite Hd, Hs.
    pose proof Hseg as Hseg'. unfold segment_canon in Hseg'.
    rewrite !andb_true_iff in Hseg'. destruct Hseg' as [[Hsc _] _].
    rewrite path_state_segment by auto. cbn [app].
    rewrite (IH _ _ Hp Hseg). cbn [rev]. now rewrite <- app_assoc.
Qed.

Lemma path_canon_rev special path :
  path_canon special path = true -> path_canon special (rev path) = true.
Proof.
  unfold path_canon. rewrite !forallb_forall. intros H x Hx.
  apply H. now apply in_rev.
Qed.

Lemma path_start_reparse special path :
  path_canon special path = true ->
  (special = true -> path <> []) ->
  path_start_state special (serialize_path path) = (path, []).
Proof.
  intros Hp Hne. rewrite serialize_path_join.
  apply path_canon_rev in Hp. rewrite <- (rev_involutive path) at 2.
  destruct (rev path) as [|segment more] eqn:E.
  - destruct special; [|reflexivity]. exfalso. apply Hne; [reflexivity|].
    rewrite <- (rev_involutive path), E. reflexivity.
  - cbn [path_canon forallb] in Hp. apply andb_true_iff in Hp as [Hseg Hp].
    cbn [join_segments]. unfold path_start_state.
    replace (path_separator true "/") with true by reflexivity.
    replace (one_of "?#" "/") with false by reflexivity.
    replace (is_char "/" "/") with true by reflexivity.
    assert (Hgo : path_state special [] [] (segment ++ join_segments more)
                  = (rev (segment :: more), [])).
    { pose proof Hseg as Hseg'. unfold segment_canon in Hseg'.
      rewrite !andb_true_iff in Hseg'. destruct Hseg' as [[Hsc _] _].
      rewrite path_state_segment by auto. cbn [app].
      now rewrite (path_state_reparse special more [] segment Hp Hseg). }
    destruct special; exact Hgo.
Qed.

Lemma path_start_canon special s path rest :
  path_start_state special s = (path, rest) ->
  path_canon special path = true /\ (special = true -> path <> []).
Proof.
  unfold path_start_state. intros H.
  assert (Hgo : forall s', path_state special [] [] s' = (path, rest) ->
                path_canon special path = true
                /\ (special = true -> path <> [])).
  { intros s' H'. apply path_state_canon in H' as (Hp & Hne & _);
      [tauto | reflexivity | reflexivity]. }
  destruct s as [|c t]; destruct special; eauto.
  - injection H as <- <-. split; [reflexivity | discriminate].
  - destruct (one_of "?#" c); eauto.
    injection H as <- <-. split; [reflexivity | discriminate].
Qed.

(** *** Authority *)

Lemma host_safe_inside special c :
  host_safe c = true ->
  negb (authority_end special c) && negb (is_char "@" c)
  && negb (is_char ":" c) && negb (is_slash c) = true.
Proof. destruct special; revert c; chars. Qed.

Lemma span_app (p : ascii -> bool) (a b : jsstring) :
  forallb p a = true ->
  match b with c :: _ => p c = false | [] => True end ->
  span p (a ++ b) = (a, b).
Proof.
  intros Ha Hb. induction a as [|x a IH]; cbn [app span forallb] in *.
  - destruct b as [|c b]; [reflexivity|]. cbn [span]. now rewrite Hb.
  - apply andb_true_iff in Ha as [-> Ha]. now rewrite IH.
Qed.

Lemma split_last_at_none (s : jsstring) :
  forallb (fun c => negb (is_char "@" c)) s = true -> split_last_at s = None.
Proof.
  induction s as [|c t IH]; cbn [split_last_at forallb]; [reflexivity|].
  rewrite andb_true_iff, negb_true_iff. intros [-> Ht]. now rewrite IH.
Qed.

Lemma host_state_whole (s : jsstring) : forall inside buffer,
  forallb (fun c => negb (is_char ":" c)) s = true ->
  host_state inside buffer s = (buffer ++ s, None).
Proof.
  induction s as [|c t IH]; intros inside buffer;
    cbn [host_state forallb].
  - now rewrite app_nil_r.
  - rewrite andb_true_iff, negb_true_iff. intros [-> Ht]. cbn [andb].
    rewrite IH by exact Ht. now rewrite <- app_assoc.
Qed.

Lemma serialize_path_start special path :
  match serialize_path path with
  | c :: _ => negb (authority_end special c) = false
  | [] => True
  end.
Proof.
  rewrite serialize_path_join. destruct (rev path); cbn [join_segments];
    [exact I|]. now destruct special.
Qed.

Lemma authority_state_shape special scheme s u :
  authority_state special scheme s = Parsed u ->
  protocol u = scheme ++ lit ":"
  /\ host_canon special (hostname u) = true
  /\ exists path, path_canon special path = true
                  /\ pathname u = serialize_path path
                  /\ (special = true -> path <> []).
Proof.
  unfold authority_state.
  destruct (span _ s) as [authority rest].
  assert (Hcreds : exists user pass hostport,
    match split_last_at authority with
    | Some (buffer, []) => Failure
    | Some (buffer, hostport) => Parsed (credentials buffer, hostport)
    | None => Parsed (([], []), authority)
    end = Parsed ((user, pass), hostport)
    \/ match split_last_at authority with
       | Some (buffer, []) => Failure
       | Some (buffer, hostport) => Parsed (credentials buffer, hostport)
       | None => Parsed (([], []), authority)
       end = Failure).
  { destruct (split_last_at authority) as [[buffer [|h hp]]|];
      cbv beta iota.
    - exists [], [], []. now right.
    - destruct (credentials buffer) as [user pass].
      exists user, pass, (h :: hp). now left.
    - exists [], [], authority. now left. }
  destruct Hcreds as (user & pass & hostport & [-> | ->]); cbn [obind];
    [|discriminate].
  destruct (host_state false [] hostport) as [buffer portText].
  assert (Hend : forall host port,
    host_canon special host = true ->
    (let (path, rest') := path_start_state special rest in
     let (search, hash) := query_and_fragment special rest' in
     Parsed (mkURL (scheme ++ lit ":") user pass host port
                   (serialize_path path) search hash)) = Parsed u ->
    protocol u = scheme ++ lit ":"
    /\ host_canon special (hostname u) = true
    /\ exists path, path_canon special path = true
                    /\ pathname u = serialize_path path
                    /\ (special = true -> path <> [])).
  { intros host port Hh.
    destruct (path_start_state special rest) as [path rest'] eqn:Ep.
    destruct (query_and_fragment special rest') as [search hash].
    intros [= <-]. cbn. apply path_start_canon in Ep as [Hp Hne].
    repeat split; [exact Hh|]. exists path. auto. }
  destruct portText as [digits|].
  - destruct (truthy buffer); cbn [negb obind]; [|discriminate].
    destruct (host_parser (negb special) buffer) as [host| |] eqn:Eh;
      cbn [obind]; try discriminate.
    destruct (port_state scheme digits) as [port| |]; cbn [obind];
      try discriminate.
    apply Hend. now apply host_parser_canon in Eh.
  - destruct (special && negb (truthy buffer)); cbn [obind];
      [discriminate|].
    destruct (host_parser (negb special) buffer) as [host| |] eqn:Eh;
      cbn [obind]; try discriminate.
    apply Hend. now apply host_parser_canon in Eh.
Qed.

Lemma authority_state_reparse special scheme host path :
  host_canon special host = true -> host <> [] ->
  path_canon special path = true ->
  (special = true -> path <> []) ->
  authority_state special scheme (host ++ serialize_path path)
  = Parsed (mkURL (scheme ++ lit ":") [] [] host [] (serialize_path path)
                  [] []).
Proof.
  intros Hh Hne Hp Hpne.
  pose proof (host_canon_safe _ _ Hh) as Hs.
  pose proof (forallb_impl _ _ _ (host_safe_inside special) Hs) as Hi.
  rewrite !forallb_and, !andb_true_iff in Hi.
  destruct Hi as [[[Hend Hat] Hcolon] _].
  unfold authority_state.
  rewrite (span_app _ _ _ Hend (serialize_path_start special path)).
  rewrite (split_last_at_none _ Hat). cbn [obind].
  rewrite (host_state_whole _ false [] Hcolon). cbn [app].
  destruct host as [|c host']; [congruence|]. cbn [truthy negb].
  rewrite andb_false_r, (host_canon_reparse _ _ Hh). cbn [obind].
  now rewrite (path_start_reparse _ _ Hp Hpne).
Qed.

(** *** The whole parser *)

Lemma lower_plain c : is_lower c = true -> plain c = true.
Proof. revert c. chars. Qed.

Lemma scheme_canon_char_plain c : scheme_canon_char c = true -> plain c = true.
Proof. revert c. chars. Qed.

Lemma host_safe_plain c : host_safe c = true -> plain c = true.
Proof. revert c. chars. Qed.

Lemma path_char_plain_char special c :
  path_char special c = true -> plain c = true.
Proof. destruct special; revert c; chars. Qed.

Lemma plain_not_tab c :
  plain c = true -> negb (is_tab_or_newline c) = true.
Proof. revert c. chars. Qed.

Lemma plain_visible c : plain c = true -> is_c0_or_space c = false.
Proof. unfold plain. rewrite andb_true_iff, negb_true_iff. tauto. Qed.

Lemma scheme_plain scheme :
  scheme_canon scheme = true -> forallb plain (scheme ++ lit ":") = true.
Proof.
  destruct scheme as [|c t]; cbn [scheme_canon]; [discriminate|].
  rewrite andb_true_iff. intros [Hc Ht]. cbn [app forallb].
  rewrite (lower_plain _ Hc), forallb_app.
  now rewrite (forallb_impl _ _ _ scheme_canon_char_plain Ht).
Qed.

Lemma path_plain special path :
  path_canon special path = true ->
  forallb plain (serialize_path path) = true.
Proof.
  intros H. apply path_canon_rev in H. rewrite serialize_path_join.
  induction (rev path) as [|segment more IH]; [reflexivity|].
  cbn [path_canon forallb] in H. apply andb_true_iff in H as [Hs Hm].
  cbn [join_segments forallb]. rewrite forallb_app, (IH Hm), andb_true_r.
  unfold segment_canon in Hs. rewrite !andb_true_iff in Hs.
  destruct Hs as [[Hs _] _].
  now rewrite (forallb_impl _ _ _ (path_char_plain_char special) Hs).
Qed.

Lemma plain_delimiter_free s : forallb plain s = true -> delimiter_free s.
Proof.
  intros H. rewrite forallb_forall in H.
  split; intros Hin; apply H in Hin; discriminate.
Qed.

Lemma strip_fixed s : forallb plain s = true -> strip s = s.
Proof.
  intros H. unfold strip. rewrite (drop_while_id is_c0_or_space s).
  - rewrite drop_while_id; [apply rev_involutive|].
    destruct (rev s) as [|c t] eqn:E; [exact I|].
    apply plain_visible. rewrite forallb_forall in H. apply H, in_rev.
    rewrite E. now left.
  - destruct s as [|c t]; [exact I|]. cbn [forallb] in H.
    apply andb_true_iff in H as [H _]. now apply plain_visible.
Qed.

Lemma remove_tab_newline_fixed s :
  forallb plain s = true -> remove_tab_newline s = s.
Proof.
  unfold remove_tab_newline. induction s as [|c t IH];
    cbn [filter forallb]; [reflexivity|].
  rewrite andb_true_iff. intros [Hc Ht].
  now rewrite (plain_not_tab _ Hc), IH.
Qed.

Lemma span_prefix (p : ascii -> bool) s : forall a b,
  span p s = (a, b) -> forallb p a = true.
Proof.
  induction s as [|c t IH]; intros a b; cbn [span].
  - now intros [= <- <-].
  - destruct (p c) eqn:E.
    + destruct (span p t) as [a' b']. intros [= <- <-]. cbn [forallb].
      rewrite E. now apply (IH a' b').
    + now intros [= <- <-].
Qed.

Lemma opaque_char_encoded_plain c :
  negb (one_of "?#" c) = true ->
  forallb (fun x => negb (one_of "?#" x))
          (utf8_percent_encode c0_control_set c) = true.
Proof. revert c. chars. Qed.

Lemma opaque_path_delimiter_free s a b :
  span (fun c => negb (one_of "?#" c)) s = (a, b) ->
  delimiter_free (encode_string c0_control_set a).
Proof.
  intros H. apply span_prefix in H.
  apply (forallb_impl _ _ _ opaque_char_encoded_plain) in H.
  rewrite <- forallb_flat_map in H. fold (encode_string c0_control_set a) in H.
  rewrite forallb_forall in H.
  split; intros Hin; apply H in Hin; discriminate.
Qed.

Lemma path_only_shape scheme s u :
  path_only scheme s = Parsed u ->
  protocol u = scheme ++ lit ":" /\ hostname u = []
  /\ exists path, path_canon false path = true
                  /\ pathname u = serialize_path path.
Proof.
  unfold path_only.
  destruct (path_state false [] [] s) as [path rest] eqn:E.
  destruct (query_and_fragment false rest) as [search hash].
  intros [= <-]. cbn. repeat split. exists path. split; [|reflexivity].
  now apply path_state_canon in E as [E _].
Qed.

Lemma opaque_path_shape scheme s u :
  opaque_path_state scheme s = Parsed u ->
  protocol u = scheme ++ lit ":" /\ hostname u = []
  /\ delimiter_free (pathname u).
Proof.
  unfold opaque_path_state.
  destruct (span _ s) as [path rest] eqn:E.
  destruct (is_char " " _ && truthy rest); [discriminate|].
  destruct (query_and_fragment false rest) as [search hash].
  intros [= <-]. cbn. repeat split;
    now apply (opaque_path_delimiter_free _ _ _ E).
Qed.

Theorem basic_url_parser_normal_form input u :
  basic_url_parser input = Parsed u -> normal_form u.
Proof.
  unfold basic_url_parser.
  destruct (scheme_start_state _) as [[scheme rest]|] eqn:Es;
    [|discriminate].
  apply scheme_start_canon in Es.
  destruct (str_eqb scheme "file") eqn:Ef; [discriminate|].
  intros H. exists scheme. split; [exact Es|]. split; [exact Ef|].
  assert (Hpath : forall s, path_only scheme s = Parsed u ->
            is_special scheme = false ->
            protocol u = scheme ++ lit ":"
            /\ ((host_canon (is_special scheme) (hostname u) = true
                 /\ exists path,
                     path_canon (is_special scheme) path = true
                     /\ pathname u = serialize_path path
                     /\ (is_special scheme = true -> path <> []))
                \/ (hostname u = [] /\ delimiter_free (pathname u)))).
  { intros s Hs ->. apply path_only_shape in Hs as (Hp & -> & path & Hc & Hn).
    split; [exact Hp|]. left. split; [reflexivity|].
    exists path. repeat split; [exact Hc | exact Hn | discriminate]. }
  assert (Hopaque : forall s, opaque_path_state scheme s = Parsed u ->
            protocol u = scheme ++ lit ":"
            /\ ((host_canon (is_special scheme) (hostname u) = true
                 /\ exists path,
                     path_canon (is_special scheme) path = true
                     /\ pathname u = serialize_path path
                     /\ (is_special scheme = true -> path <> []))
                \/ (hostname u = [] /\ delimiter_free (pathname u)))).
  { intros s Hs. apply opaque_path_shape in Hs as (Hp & Hh & Hd). auto. }
  destruct (is_special scheme) eqn:Esp.
  - apply authority_state_shape in H as (Hp & Hh & Hpath'). auto.
  - destruct rest as [|c rest1]; [now apply Hopaque in H|].
    destruct (is_char "/" c); [|now apply Hopaque in H].
    destruct rest1 as [|d rest2]; [now apply Hpath in H|].
    destruct (is_char "/" d); [|now apply Hpath in H].
    apply authority_state_shape in H as (Hp & Hh & Hpath'). auto.
Qed.

Theorem basic_url_parser_reparse scheme host path :
  scheme_canon scheme = true ->
  str_eqb scheme "file" = false ->
  host_canon (is_special scheme) host = true -> host <> [] ->
  path_canon (is_special scheme) path = true ->
  (is_special scheme = true -> path <> []) ->
  basic_url_parser
    ((scheme ++ lit ":") ++ lit "//" ++ host ++ serialize_path path)
  = Parsed (mkURL (scheme ++ lit ":") [] [] host [] (serialize_path path)
                  [] []).
Proof.
  intros Hs Hf Hh Hne Hp Hpne. unfold basic_url_parser.
  assert (Hplain : forallb plain
            ((scheme ++ lit ":") ++ lit "//" ++ host ++ serialize_path path)
          = true).
  { rewrite forallb_app, (scheme_plain _ Hs), !forallb_app.
    rewrite (path_plain _ _ Hp).
    now rewrite (forallb_impl _ _ _ host_safe_plain
                   (host_canon_safe _ _ Hh)). }
  rewrite (strip_fixed _ Hplain), (remove_tab_newline_fixed _ Hplain).
  rewrite <- app_assoc.
  change (lit ":" ++ lit "//" ++ host ++ serialize_path path)
    with (":"%char :: "/"%char :: "/"%char :: host ++ serialize_path path).
  rewrite (scheme_start_reparse _ _ Hs), Hf.
  pose proof (authority_state_reparse _ scheme _ _ Hh Hne Hp Hpne) as Ha.
  destruct (is_special scheme) eqn:Esp.
  - cbn [drop_while]. replace (is_slash "/") with true by reflexivity.
    rewrite drop_while_id; [exact Ha|].
    destruct host as [|c host']; [congruence|].
    pose proof (host_canon_safe _ _ Hh) as Hsafe. cbn [forallb] in Hsafe.
    apply andb_true_iff in Hsafe as [Hc _].
    apply (host_safe_inside true) in Hc. rewrite !andb_true_iff in Hc.
    destruct Hc as [_ Hc]. now apply negb_true_iff in Hc.
  - replace (is_char "/" "/") with true by reflexivity. exact Ha.
Qed.

Lemma construct_parsed url u :
  construct url = Some u <-> basic_url_parser url = Parsed u.
Proof.
  unfold construct. destruct (basic_url_parser url); split; congruence.
Qed.

Lemma js_lower_fixed c :
  is_ascii c && negb (is_upper c) = true ->
  ascii_eqb (JS.lower_char c) c = true.
Proof. revert c. chars. Qed.

Lemma domain_lower d : domain_canon d = true -> toLowerCase d = d.
Proof.
  unfold domain_canon. rewrite !andb_true_iff.
  intros [[[[Ha _] Hu] _] _]. apply map_fixed, Forall_forall.
  assert (H : forallb (fun c => is_ascii c && negb (is_upper c)) d = true)
    by now rewrite forallb_and, Ha, Hu.
  rewrite forallb_forall in H. intros c Hc.
  now apply ascii_eqb_eq, js_lower_fixed, H.
Qed.

Lemma special_protocol_scheme scheme :
  In (scheme ++ lit ":") special_protocols -> is_special scheme = true.
Proof.
  intros H. cbn [special_protocols In] in H.
  assert (Hin : In scheme special_schemes).
  { cbn [special_schemes In].
    repeat (destruct H as [H | H];
            [ match type of H with
              | lit ?x = _ =>
                  let y := eval vm_compute in (removelast (lit x)) in
                  change (lit x) with (y ++ lit ":") in H;
                  apply app_inv_tail in H; rewrite <- H; vm_compute; tauto
              end | ]).
    destruct H. }
  unfold is_special. apply existsb_exists. exists scheme.
  split; [exact Hin | apply str_eqb_refl].
Qed.

End WhatwgFacts.

Lemma reference_normal_form s u :
  parse_url (URLParser := reference_parser) s = Some u ->
  NormalForm.normal_form u.
Proof.
  intros H. apply WhatwgFacts.construct_parsed in H.
  now apply WhatwgFacts.basic_url_parser_normal_form in H.
Qed.

#[export] Instance reference_delimits : Delimits reference_parser.
Proof.
  constructor; intros s u H; apply reference_normal_form in H;
    destruct H as (scheme & Hs & Hf & Hp & Hcases).
  - rewrite Hp. now apply WhatwgFacts.plain_delimiter_free,
                          WhatwgFacts.scheme_plain.
  - destruct Hcases as [[Hh _] | [-> _]]; [|split; intros []].
    apply WhatwgFacts.plain_delimiter_free.
    apply WhatwgFacts.host_canon_safe in Hh. revert Hh.
    apply WhatwgFacts.forallb_impl. exact WhatwgFacts.host_safe_plain.
  - destruct Hcases as [[_ (path & Hc & -> & _)] | [_ Hd]]; [|exact Hd].
    eapply WhatwgFacts.plain_delimiter_free, WhatwgFacts.path_plain, Hc.
Qed.

#[export] Instance reference_lowers : LowersSpecialHosts reference_parser.
Proof.
  constructor; intros s u H; apply reference_normal_form in H;
    destruct H as (scheme & Hs & Hf & Hp & Hcases).
  intros Hin. rewrite Hp in Hin.
  apply WhatwgFacts.special_protocol_scheme in Hin.
  destruct Hcases as [[Hh _] | [-> _]]; [|reflexivity].
  rewrite Hin in Hh. now apply WhatwgFacts.domain_lower.
Qed.

#[export] Instance reference_normalizes : Normalizes reference_parser.
Proof.
  constructor; intros s u H; apply reference_normal_form in H;
    destruct H as (scheme & Hs & Hf & Hp & Hcases).
  intros Hne. destruct Hcases as [[Hh (path & Hc & Hn & Hpne)] | [Hh _]];
    [|congruence].
  exists (mkURL (protocol u) [] [] (hostname u) [] (pathname u) [] []).
  split; [|now repeat split].
  apply WhatwgFacts.construct_parsed. rewrite Hp, Hn.
  now apply WhatwgFacts.basic_url_parser_reparse.
Qed.

(** ** Helper lemmas for the claims *)

Lemma occurs_question (s : jsstring) : occurs "/?" s -> In "?"%char s.
Proof.
  intros (pre & rest & ->). apply in_or_app. right. right. now left.
Qed.

Lemma before_first_absent (sep s : jsstring) :
  ~ occurs sep s -> before_first sep s = s.
Proof.
  intros H. apply cut_none in H. unfold before_first. now rewrite H.
Qed.

Lemma second_piece_unique (s pre rest : jsstring) :
  first_occurrence "/?" s pre rest -> ~ occurs "/?" rest ->
  second_piece "/?" s = rest.
Proof.
  intros Hf Hr. apply cut_some in Hf. unfold second_piece. rewrite Hf.
  now apply before_first_absent.
Qed.

Lemma second_piece_none (s : jsstring) :
  ~ occurs "/?" s -> second_piece "/?" s = [].
Proof.
  intros H. apply cut_none in H. unfold second_piece. now rewrite H.
Qed.

Lemma validDomains_nonempty_host (h : jsstring) :
  array_includes validDomains (toLowerCase h) = true -> h <> [].
Proof. intros H ->. discriminate. Qed.

Lemma delimiter_free_app (a b : jsstring) :
  delimiter_free a -> delimiter_free b -> delimiter_free (a ++ b).
Proof.
  intros [Ha1 Ha2] [Hb1 Hb2].
  split; intros H; apply in_app_or in H; tauto.
Qed.

Section Claims.

Context {platform : URLParser}.

Lemma pathname_not_split {delimits : Delimits platform} s u :
  parse_url s = Some u -> before_first "/?" (pathname u) = pathname u.
Proof.
  intros H. apply before_first_absent. intros Ho.
  apply occurs_question in Ho.
  now destruct (pathname_delimiter_free _ _ H).
Qed.

Lemma clean_url_delimiter_free {delimits : Delimits platform} s u :
  parse_url s = Some u ->
  delimiter_free (protocol u ++ lit "//" ++ hostname u ++ pathname u).
Proof.
  intros H. repeat apply delimiter_free_app.
  - exact (protocol_delimiter_free _ _ H).
  - split; intros [E | [E | []]]; discriminate.
  - exact (hostname_delimiter_free _ _ H).
  - exact (pathname_delimiter_free _ _ H).
Qed.

(** The [try] block of [validateAndCleanUrl] completes normally whatever
    the cleaning step returns or throws. *)
Lemma cleaning_block_catches (c : completion CleaningResult) (page : Page) :
  exists page',
    tryCatch (result <~ lift c ;; showResults result)
             (fun _ => showError malformed_url_message ;;; hideResults)
             page
    = (Normal tt, page').
Proof.
  destruct c as [r | e]; unfold tryCatch, andThen, lift; cbn.
  - destruct (wasModified r); eexists; reflexivity.
  - eexists; reflexivity.
Qed.

(** *** C1 *)

(** C1, amended.  For every input that parses, [cleanInstagramUrl]
    returns [cleanUrl = <scheme>://<host><path-up-to-/?>]: the host is the
    hostname exactly as the parser returns it (the method converts no
    case; the parser lower-cases the host of a special scheme), the path
    is the parsed path cut before its first [/?], and inputs that agree
    on scheme, host and path get the same [cleanUrl], whatever their
    query and fragment. *)
Theorem clean_url_form {lowers : LowersSpecialHosts platform}
        (s : jsstring) (u : URL) :
  parse_url s = Some u ->
  exists r path,
    cleanInstagramUrl s = Normal r
    /\ truncated_at "/?" (pathname u) path
    /\ cleanUrl r = protocol u ++ lit "//" ++ hostname u ++ path
    /\ (In (protocol u) special_protocols ->
        toLowerCase (hostname u) = hostname u)
    /\ (forall s' u' r',
          parse_url s' = Some u' -> cleanInstagramUrl s' = Normal r' ->
          protocol u' = protocol u -> hostname u' = hostname u ->
          pathname u' = pathname u ->
          cleanUrl r' = cleanUrl r).
Proof.
  intros H. rewrite (cleanInstagramUrl_parsed _ _ H).
  eexists. exists (before_first "/?" (pathname u)).
  split; [reflexivity|]. split; [apply truncated_at_cut|].
  split; [reflexivity|]. split; [exact (special_hostname_lower _ _ H)|].
  intros s' u' r' H' Hr' Hp Hh Hn.
  rewrite (cleanInstagramUrl_parsed _ _ H') in Hr'. injection Hr' as <-.
  cbn [cleanUrl]. now rewrite Hp, Hh, Hn.
Qed.

(** *** C3 *)

(** C3, amended.  For every input that parses: if the raw string holds
    [/?] once, with [rest] after it, then [removed] is [/?] and [rest]
    when [rest] is not empty and the sentinel when it is empty, and
    [wasModified] tells whether [rest] is not empty; if the raw string
    holds no [/?], [removed] is the sentinel and [wasModified] is
    false. *)
Theorem removed_and_modified (s : jsstring) (u : URL) :
  parse_url s = Some u ->
  exists r,
    cleanInstagramUrl s = Normal r
    /\ (forall pre rest,
          first_occurrence "/?" s pre rest -> ~ occurs "/?" rest ->
          removed r = (if truthy rest then lit "/?" ++ rest else no_tracking)
          /\ wasModified r = truthy rest)
    /\ (~ occurs "/?" s ->
        removed r = no_tracking /\ wasModified r = false).
Proof.
  intros H. rewrite (cleanInstagramUrl_parsed _ _ H). eexists.
  split; [reflexivity|]. cbn [removed wasModified]. split.
  - intros pre rest Hf Hr. rewrite (second_piece_unique _ _ _ Hf Hr).
    split; reflexivity.
  - intros Hn. rewrite (second_piece_none _ Hn). split; reflexivity.
Qed.

(** *** C4 *)

(** C4.  [isValidInstagramUrl s] returns true exactly when [s] parses and
    its hostname, lower-cased, is one of the five allow-listed names; it
    returns false when [s] does not parse, always returns a boolean, and
    gives the same answer for hostnames that differ only in case. *)
Theorem valid_iff_allow_listed (s : jsstring) :
  (isValidInstagramUrl s = Normal true <->
   exists u, parse_url s = Some u
             /\ (toLowerCase (hostname u) = lit "instagram.com"
                 \/ toLowerCase (hostname u) = lit "www.instagram.com"
                 \/ toLowerCase (hostname u) = lit "m.instagram.com"
                 \/ toLowerCase (hostname u) = lit "instagr.am"
                 \/ toLowerCase (hostname u) = lit "www.instagr.am"))
  /\ (parse_url s = None -> isValidInstagramUrl s = Normal false)
  /\ (exists b, isValidInstagramUrl s = Normal b)
  /\ (forall s' u u',
        parse_url s = Some u -> parse_url s' = Some u' ->
        toLowerCase (hostname u) = toLowerCase (hostname u') ->
        isValidInstagramUrl s = isValidInstagramUrl s').
Proof.
  assert (Hlist : forall h,
    array_includes validDomains h = true <->
    h = lit "instagram.com" \/ h = lit "www.instagram.com"
    \/ h = lit "m.instagram.com" \/ h = lit "instagr.am"
    \/ h = lit "www.instagr.am").
  { intros h. rewrite array_includes_In. cbn [validDomains In].
    intuition congruence. }
  repeat split.
  - intros H. apply valid_parses in H as (u & Hu & Hin).
    exists u. split; [exact Hu | now apply Hlist].
  - intros (u & Hu & Hin). rewrite (isValidInstagramUrl_parsed _ _ Hu).
    f_equal. now apply Hlist.
  - apply isValidInstagramUrl_unparsed.
  - destruct (parse_url s) as [u|] eqn:E.
    + eexists. apply (isValidInstagramUrl_parsed _ _ E).
    + eexists. apply (isValidInstagramUrl_unparsed _ E).
  - intros s' u u' Hu Hu' Hl.
    rewrite (isValidInstagramUrl_parsed _ _ Hu),
            (isValidInstagramUrl_parsed _ _ Hu').
    now rewrite Hl.
Qed.

(** *** C5 *)

(** C5.  For every [u] that [isValidInstagramUrl] accepts, cleaning the
    cleaned URL gives the same URL again. *)
Theorem clean_idempotent {delimits : Delimits platform}
        {normalizes : Normalizes platform} (u : jsstring) :
  isValidInstagramUrl u = Normal true ->
  exists r r',
    cleanInstagramUrl u = Normal r
    /\ cleanInstagramUrl (cleanUrl r) = Normal r'
    /\ cleanUrl r' = cleanUrl r.
Proof.
  intros H. apply valid_parses in H as (o & Ho & Hin).
  apply validDomains_nonempty_host in Hin.
  destruct (reparse_stable _ _ Ho Hin) as (o' & Ho' & Hp & Hh & Hn).
  rewrite (cleanInstagramUrl_parsed _ _ Ho). eexists. eexists.
  split; [reflexivity|]. cbn [cleanUrl].
  rewrite (pathname_not_split _ _ Ho).
  rewrite (cleanInstagramUrl_parsed _ _ Ho'). split; [reflexivity|].
  cbn [cleanUrl]. rewrite (pathname_not_split _ _ Ho').
  now rewrite Hp, Hh, Hn.
Qed.

(** *** C6 *)

(** C6, amended.  For every input that parses and holds no literal [/?],
    with or without a query, [cleanUrl] is scheme, host and path only: it
    holds no [?], so the query is dropped from it, while [removed] is the
    sentinel and [wasModified] is false. *)
Theorem query_dropped_unreported {delimits : Delimits platform}
        (s : jsstring) (u : URL) :
  parse_url s = Some u -> ~ occurs "/?" s ->
  exists r,
    cleanInstagramUrl s = Normal r
    /\ cleanUrl r = protocol u ++ lit "//" ++ hostname u ++ pathname u
    /\ ~ In "?"%char (cleanUrl r)
    /\ removed r = no_tracking
    /\ wasModified r = false.
Proof.
  intros H Hn. rewrite (cleanInstagramUrl_parsed _ _ H). eexists.
  split; [reflexivity|]. cbn [cleanUrl removed wasModified].
  rewrite (pathname_not_split _ _ H), (second_piece_none _ Hn).
  repeat split. apply (clean_url_delimiter_free _ _ H).
Qed.

(** *** C7 *)

(** C7.  When [isValidInstagramUrl s] is true, [cleanInstagramUrl s]
    returns a result and throws nothing; [validateAndCleanUrl] completes
    normally on every input and every page; and its [try] block completes
    normally whatever the cleaning step does. *)
Theorem no_uncaught_error :
  (forall s, isValidInstagramUrl s = Normal true ->
             exists r, cleanInstagramUrl s = Normal r)
  /\ (forall s page, exists page',
        validateAndCleanUrl s page = (Normal tt, page'))
  /\ (forall c page, exists page',
        tryCatch (result <~ lift c ;; showResults result)
                 (fun _ => showError malformed_url_message ;;; hideResults)
                 page
        = (Normal tt, page')).
Proof.
  split; [|split].
  - intros s H. apply valid_parses in H as (u & Hu & _).
    rewrite (cleanInstagramUrl_parsed _ _ Hu). eexists; reflexivity.
  - intros s page. unfold validateAndCleanUrl.
    destruct s as [|c t]; [eexists; reflexivity|].
    cbn [truthy negb]. unfold andThen at 1. cbn [hideAlerts update].
    unfold andThen at 1, lift at 1.
    destruct (parse_url (c :: t)) as [u|] eqn:E.
    + rewrite (isValidInstagramUrl_parsed _ _ E).
      destruct (array_includes _ _); cbn [negb].
      * apply cleaning_block_catches.
      * eexists; reflexivity.
    + rewrite (isValidInstagramUrl_unparsed _ E). eexists; reflexivity.
  - exact cleaning_block_catches.
Qed.

(** *** C8 *)

Lemma value_classList_add t e : value (classList_add t e) = value e.
Proof. unfold classList_add. now destruct (has_class t e). Qed.

Lemma trim_start_nil (s : jsstring) :
  trim_start s = [] <-> forallb is_white s = true.
Proof.
  induction s as [|c t IH]; cbn [trim_start forallb]; [easy|].
  destruct (is_white c); cbn [andb]; [exact IH|]. split; discriminate.
Qed.

Lemma trim_start_white (s : jsstring) :
  forallb is_white (trim_start s) = forallb is_white s.
Proof.
  induction s as [|c t IH]; cbn [trim_start]; [reflexivity|].
  destruct (is_white c) eqn:E; [|reflexivity].
  cbn [forallb]. now rewrite E.
Qed.

Lemma forallb_rev {A} (f : A -> bool) (l : list A) :
  forallb f (rev l) = forallb f l.
Proof.
  induction l as [|x l IH]; [reflexivity|].
  cbn [rev forallb]. rewrite forallb_app, IH. cbn [forallb].
  rewrite andb_true_r. apply andb_comm.
Qed.

Lemma trim_whitespace_only (field : jsstring) :
  trim field = [] <-> whitespace_only field = true.
Proof.
  unfold trim, whitespace_only.
  rewrite <- (trim_start_white field), <- (forallb_rev _ (trim_start field)).
  rewrite <- trim_start_nil. split.
  - intros H. apply (f_equal (@rev ascii)) in H.
    now rewrite rev_involutive in H.
  - now intros ->.
Qed.

(** C8.  [validateAndCleanUrl] has three outcomes: on the empty string it
    shows neither an error nor a result; on a non-empty string that
    [isValidInstagramUrl] rejects it shows the invalid-domain message and
    no result; otherwise it shows the result of [cleanInstagramUrl].
    Every call site passes the text of the field trimmed, and the trimmed
    text is empty exactly when the field is empty or white space only: on
    such a field the debounced validation is the call on the empty
    string, [handleUrlInput] only hides the results and [handlePaste]
    does nothing. *)
Theorem three_way_outcome (s : jsstring) (page : Page) :
  (exists page',
     validateAndCleanUrl s page = (Normal tt, page')
     /\ ((s = [] /\ error_hidden page' /\ results_hidden page')
         \/ (s <> [] /\ isValidInstagramUrl s = Normal false
             /\ error_shown page' invalid_domain_message
             /\ results_hidden page')
         \/ (s <> [] /\ isValidInstagramUrl s = Normal true
             /\ exists r, cleanInstagramUrl s = Normal r
                          /\ error_hidden page'
                          /\ results_shown page' r)))
  /\ (forall field, trim field = [] ->
        realTimeValidation field page = validateAndCleanUrl [] page
        /\ handleUrlInput field page = hideResults page
        /\ handlePaste field page = ret tt page)
  /\ (forall field, trim field = [] <-> whitespace_only field = true).
Proof.
  split; [|split; [|exact trim_whitespace_only]].
  - unfold validateAndCleanUrl. destruct s as [|c t].
    + eexists. split; [reflexivity|]. left.
      split; [reflexivity|]. split; apply has_class_add.
    + cbn [truthy negb]. unfold andThen at 1. cbn [hideAlerts update].
      unfold andThen at 1, lift at 1.
      destruct (parse_url (c :: t)) as [u|] eqn:E.
      * rewrite (isValidInstagramUrl_parsed _ _ E).
        destruct (array_includes _ _) eqn:Ev; cbn [negb].
        -- rewrite (cleanInstagramUrl_parsed _ _ E).
           unfold tryCatch, andThen, lift, showResults, andThen, update.
           cbn [wasModified].
           destruct (truthy (second_piece "/?" (c :: t)));
             (eexists; split; [reflexivity|]; right; right;
              split; [discriminate|]; split; [reflexivity|];
              eexists; split; [reflexivity|];
              split; [apply has_class_add|];
              split; [apply has_class_remove|]); cbn.
           ++ now rewrite value_classList_add.
           ++ reflexivity.
        -- eexists. split; [reflexivity|]. right; left.
           split; [discriminate|]. split; [reflexivity|].
           split; [split; [apply has_class_remove | reflexivity]|].
           apply has_class_add.
      * rewrite (isValidInstagramUrl_unparsed _ E). cbn [negb].
        eexists. split; [reflexivity|]. right; left.
        split; [discriminate|]. split; [reflexivity|].
        split; [split; [apply has_class_remove | reflexivity]|].
        apply has_class_add.
  - intros field H. unfold realTimeValidation, handleUrlInput, handlePaste.
    rewrite H. repeat split.
Qed.

(** *** C9 *)

(** C9.  For every input that parses, splitting the parsed path on [/?]
    changes nothing, so [cleanUrl] is protocol, two slashes, hostname and
    pathname of the parse; it holds neither [?] nor [#]; and inputs that
    agree on these three components get the same [cleanUrl], whatever
    their port, user name, password, query and fragment. *)
Theorem clean_url_components {delimits : Delimits platform}
        (s : jsstring) (u : URL) :
  parse_url s = Some u ->
  exists r,
    cleanInstagramUrl s = Normal r
    /\ split (pathname u) "/?" = [pathname u]
    /\ cleanUrl r = protocol u ++ lit "//" ++ hostname u ++ pathname u
    /\ ~ In "?"%char (cleanUrl r)
    /\ ~ In "#"%char (cleanUrl r)
    /\ (forall s' u' r',
          parse_url s' = Some u' -> cleanInstagramUrl s' = Normal r' ->
          protocol u' = protocol u -> hostname u' = hostname u ->
          pathname u' = pathname u ->
          cleanUrl r' = cleanUrl r).
Proof.
  intros H. rewrite (cleanInstagramUrl_parsed _ _ H). eexists.
  split; [reflexivity|]. cbn [cleanUrl].
  rewrite (pathname_not_split _ _ H).
  destruct (clean_url_delimiter_free _ _ H) as [Hq Hh].
  split; [|split; [reflexivity|]; split; [exact Hq|]; split; [exact Hh|]].
  - rewrite (split_cut _ _ slash_question_nonempty).
    pose proof (pathname_not_split _ _ H) as Hb. unfold before_first in Hb.
    destruct (cut "/?" (pathname u)) as [[a b]|] eqn:Ec; [|reflexivity].
    exfalso. apply cut_some in Ec as [Ec _].
    destruct (pathname_delimiter_free _ _ H) as [Hp _]. apply Hp.
    rewrite Ec. apply in_or_app. right. right. now left.
  - intros s' u' r' H' Hr' Hp Hh' Hn.
    rewrite (cleanInstagramUrl_parsed _ _ H') in Hr'.
    assert (Hc : cleanUrl r' = protocol u' ++ lit "//" ++ hostname u'
                               ++ before_first "/?" (pathname u'))
      by (injection Hr' as <-; reflexivity).
    rewrite Hc, (pathname_not_split _ _ H'). now rewrite Hp, Hh', Hn.
Qed.

End Claims.

(** ** The claims on concrete inputs, with the reference parser *)

Module Reference.

Import Inputs.

Ltac run := vm_compute; reflexivity.

(** *** C2 *)

(** C2, on the code.  On the reel URL of the scenario the parsed path is
    [/reel/DMaaOuDK_Bk/], the query having been split off by the parser,
    so [cleanUrl] keeps the slash that [removed] reports as removed:
    [cleanUrl] is not the URL the scenario gives. *)
Theorem reel_scenario_keeps_slash :
  cleanInstagramUrl (platform := reference_parser) reel
  = Normal (mkResult "https://www.instagram.com/reel/DMaaOuDK_Bk/"
                     "/?igsh=dHFkZW9ycmh1cnQz"
                     true)
  /\ lit "https://www.instagram.com/reel/DMaaOuDK_Bk/"
     <> lit "https://www.instagram.com/reel/DMaaOuDK_Bk".
Proof. split; [run | discriminate]. Qed.

(** *** C10 *)

(** C10.  [wasModified] can be false although [cleanUrl] differs from the
    input: with a query and no [/?], and with [/?] as the last two
    characters. *)
Theorem was_modified_misses_changes :
  (exists r,
     cleanInstagramUrl (platform := reference_parser) plain_query = Normal r
     /\ wasModified r = false /\ cleanUrl r <> plain_query)
  /\ (exists r,
        cleanInstagramUrl (platform := reference_parser) bare_marker
        = Normal r
        /\ wasModified r = false /\ cleanUrl r <> bare_marker).
Proof.
  split; eexists; (split; [run|]); split; [reflexivity | discriminate
                                           | reflexivity | discriminate].
Qed.

(** Idempotence (C5) needs the validation: an address with an opaque path
    parses, and cleaning it twice gives two different URLs. *)
Remark unvalidated_not_idempotent :
  exists r r',
    cleanInstagramUrl (platform := reference_parser) "mailto:a@b" = Normal r
    /\ cleanInstagramUrl (platform := reference_parser) (cleanUrl r)
       = Normal r'
    /\ cleanUrl r = lit "mailto://a@b"
    /\ cleanUrl r' = lit "mailto://b".
Proof. eexists. eexists. split; [run|]. split; [run|]. split; reflexivity. Qed.

(** With a second [/?] in the raw input, [removed] stops before it (C3
    leaves these inputs out). *)
Remark second_marker_cuts_removed :
  cleanInstagramUrl (platform := reference_parser)
                    "https://www.instagram.com/p/X/?a=1/?b=2"
  = Normal (mkResult "https://www.instagram.com/p/X/" "/?a=1" true).
Proof. run. Qed.

(** *** Counterexamples to the claims as stated *)

(** C1 as stated fails: a URL of a non-special scheme passes validation
    and is cleaned with its host in upper case. *)
Lemma host_case_kept :
  isValidInstagramUrl (platform := reference_parser) other_scheme
  = Normal true
  /\ ~ clean_url_host_lower_cased (platform := reference_parser)
       other_scheme.
Proof.
  split; [run|]. intros H.
  destruct (H _ ltac:(run)) as (r & path & Hr & _ & Hc).
  vm_compute in Hr. injection Hr as <-. vm_compute in Hc. discriminate Hc.
Qed.

(** C3 as stated fails: with nothing after [/?], [removed] is the
    sentinel, not [/?]. *)
Lemma bare_marker_reports_nothing :
  ~ removed_is_rest (platform := reference_parser) bare_marker.
Proof.
  intros H.
  destruct (H _ (lit "https://www.instagram.com/p/ABC123") []
              ltac:(run) ltac:(apply cut_some; run)) as (r & Hr & Hrem).
  vm_compute in Hr. injection Hr as <-. discriminate Hrem.
Qed.

(** C6 as stated fails: the query is not in [cleanUrl]. *)
Lemma plain_query_dropped :
  ~ query_kept (platform := reference_parser) plain_query.
Proof.
  intros H.
  assert (Ho : occurs "?igshid=xyz" "https://www.instagram.com/p/ABC123").
  { refine (H _ _ ltac:(run) _ _ ltac:(run)).
    - discriminate.
    - apply cut_none. run. }
  revert Ho. apply cut_none. run.
Qed.

(** *** The theorems at concrete inputs *)

Lemma clean_url_form_witness :
  parse_url (URLParser := reference_parser) upper_host
  = Some upper_host_parsed
  /\ exists r path,
      cleanInstagramUrl upper_host = Normal r
      /\ truncated_at "/?" (pathname upper_host_parsed) path
      /\ cleanUrl r = protocol upper_host_parsed ++ lit "//"
                      ++ hostname upper_host_parsed ++ path
      /\ (In (protocol upper_host_parsed) special_protocols ->
          toLowerCase (hostname upper_host_parsed)
          = hostname upper_host_parsed)
      /\ (forall s' u' r',
            parse_url s' = Some u' -> cleanInstagramUrl s' = Normal r' ->
            protocol u' = protocol upper_host_parsed ->
            hostname u' = hostname upper_host_parsed ->
            pathname u' = pathname upper_host_parsed ->
            cleanUrl r' = cleanUrl r).
Proof.
  split; [reflexivity|].
  apply (clean_url_form (lowers := reference_lowers)).
  reflexivity.
Defined.

Lemma removed_and_modified_witness :
  parse_url (URLParser := reference_parser) upper_host
  = Some upper_host_parsed
  /\ exists r,
      cleanInstagramUrl upper_host = Normal r
      /\ (forall pre rest,
            first_occurrence "/?" upper_host pre rest ->
            ~ occurs "/?" rest ->
            removed r
            = (if truthy rest then lit "/?" ++ rest else no_tracking)
            /\ wasModified r = truthy rest)
      /\ (~ occurs "/?" upper_host ->
          removed r = no_tracking /\ wasModified r = false).
Proof.
  split; [reflexivity|].
  apply (removed_and_modified (platform := reference_parser)
                              upper_host upper_host_parsed).
  reflexivity.
Defined.

Lemma clean_idempotent_witness :
  isValidInstagramUrl (platform := reference_parser) upper_host
  = Normal true
  /\ exists r r',
      cleanInstagramUrl upper_host = Normal r
      /\ cleanInstagramUrl (cleanUrl r) = Normal r'
      /\ cleanUrl r' = cleanUrl r.
Proof.
  split; [reflexivity|].
  apply (clean_idempotent (delimits := reference_delimits)
                          (normalizes := reference_normalizes)).
  reflexivity.
Defined.

Lemma query_dropped_unreported_witness :
  parse_url (URLParser := reference_parser) plain_query
  = Some plain_query_parsed
  /\ ~ occurs "/?" plain_query
  /\ exists r,
      cleanInstagramUrl plain_query = Normal r
      /\ cleanUrl r = protocol plain_query_parsed ++ lit "//"
                      ++ hostname plain_query_parsed
                      ++ pathname plain_query_parsed
      /\ ~ In "?"%char (cleanUrl r)
      /\ removed r = no_tracking
      /\ wasModified r = false.
Proof.
  assert (Hn : ~ occurs "/?" plain_query) by (apply cut_none; reflexivity).
  split; [reflexivity|]. split; [exact Hn|].
  apply (query_dropped_unreported (delimits := reference_delimits)
                                  plain_query plain_query_parsed);
    [reflexivity | exact Hn].
Defined.

Lemma clean_url_components_witness :
  parse_url (URLParser := reference_parser) full_url = Some full_url_parsed
  /\ exists r,
      cleanInstagramUrl full_url = Normal r
      /\ split (pathname full_url_parsed) "/?" = [pathname full_url_parsed]
      /\ cleanUrl r = protocol full_url_parsed ++ lit "//"
                      ++ hostname full_url_parsed
                      ++ pathname full_url_parsed
      /\ ~ In "?"%char (cleanUrl r)
      /\ ~ In "#"%char (cleanUrl r)
      /\ (forall s' u' r',
            parse_url s' = Some u' -> cleanInstagramUrl s' = Normal r' ->
            protocol u' = protocol full_url_parsed ->
            hostname u' = hostname full_url_parsed ->
            pathname u' = pathname full_url_parsed ->
            cleanUrl r' = cleanUrl r).
Proof.
  split; [reflexivity|].
  apply (clean_url_components (delimits := reference_delimits)).
  reflexivity.
Defined.

End Reference.

(** * More properties of the class *)

Import Shell.

(** ** Token lists and elements *)

Lemma filter_twice {A} (f : A -> bool) (l : list A) :
  filter f (filter f l) = filter f l.
Proof.
  induction l as [|x l IH]; simpl; [reflexivity|].
  destruct (f x) eqn:E; simpl; [rewrite E|]; now rewrite IH.
Qed.

Lemma filter_absent (t : jsstring) (l : list jsstring) :
  existsb (str_eqb t) l = false ->
  filter (fun x => negb (str_eqb t x)) l = l.
Proof.
  induction l as [|x l IH]; simpl; [reflexivity|].
  rewrite orb_false_iff. intros [-> H]. cbn [negb]. now rewrite IH.
Qed.

Lemma classList_add_twice t e :
  classList_add t (classList_add t e) = classList_add t e.
Proof.
  unfold classList_add at 1. now rewrite has_class_add.
Qed.

Lemma classList_remove_twice t e :
  classList_remove t (classList_remove t e) = classList_remove t e.
Proof.
  unfold classList_remove. cbn [classList value textContent].
  now rewrite filter_twice.
Qed.

Lemma classList_remove_absent t e :
  has_class t e = false -> classList_remove t e = e.
Proof.
  unfold has_class, classList_remove. intros H.
  rewrite (filter_absent _ _ H). now destruct e.
Qed.

Lemma classList_add_present t e :
  has_class t e = true -> classList_add t e = e.
Proof. unfold classList_add. now intros ->. Qed.

Lemma classList_remove_add t e :
  has_class t e = false -> classList_remove t (classList_add t e) = e.
Proof.
  intros H. unfold classList_add. rewrite H. unfold classList_remove.
  cbn [classList value textContent]. rewrite filter_app. cbn [filter].
  rewrite str_eqb_refl. cbn [negb]. rewrite app_nil_r.
  fold (classList_remove t e). now apply classList_remove_absent.
Qed.

Lemma classList_remove_add_remove t e :
  classList_remove t (classList_add t (classList_remove t e))
  = classList_remove t e.
Proof. apply classList_remove_add, has_class_remove. Qed.

Lemma set_value_classList_add v t e :
  set_value v (classList_add t e) = classList_add t (set_value v e).
Proof.
  unfold classList_add, has_class, set_value. cbn [classList].
  now destruct (existsb _ _).
Qed.

Lemma set_value_classList_remove v t e :
  set_value v (classList_remove t e) = classList_remove t (set_value v e).
Proof. reflexivity. Qed.

Lemma has_class_set_value t v e : has_class t (set_value v e) = has_class t e.
Proof. reflexivity. Qed.

Lemma has_class_other_add t t' e :
  str_eqb t t' = false ->
  has_class t (classList_add t' e) = has_class t e.
Proof.
  intros H. unfold classList_add. destruct (has_class t' e); [reflexivity|].
  unfold has_class. cbn [classList]. rewrite existsb_app. cbn [existsb].
  now rewrite H, !orb_false_r.
Qed.

Lemma textContent_classList_add t e :
  textContent (classList_add t e) = textContent e.
Proof. unfold classList_add. now destruct (has_class t e). Qed.

Lemma value_of_classList_add t e : value (classList_add t e) = value e.
Proof. unfold classList_add. now destruct (has_class t e). Qed.

(** ** [validateAndCleanUrl], by cases *)

Section PageFacts.

Context {platform : URLParser}.

Lemma validate_cases (s : jsstring) (p : Page) :
  (s = [] /\ validateAndCleanUrl s p = (hideAlerts ;;; hideResults) p)
  \/ (s <> [] /\ isValidInstagramUrl s = Normal false
      /\ validateAndCleanUrl s p
         = (hideAlerts ;;; showError invalid_domain_message ;;; hideResults) p)
  \/ (s <> [] /\ isValidInstagramUrl s = Normal true
      /\ exists u, parse_url s = Some u
         /\ validateAndCleanUrl s p
            = (hideAlerts ;;;
               showResults
                 (mkResult (protocol u ++ lit "//" ++ hostname u
                            ++ before_first "/?" (pathname u))
                           (removed_text (second_piece "/?" s))
                           (truthy (second_piece "/?" s)))) p).
Proof.
  unfold validateAndCleanUrl. destruct s as [|c t]; [left; now split|].
  right. cbn [truthy negb].
  destruct (parse_url (c :: t)) as [u|] eqn:E.
  - rewrite (isValidInstagramUrl_parsed _ _ E).
    destruct (array_includes _ _) eqn:Ev.
    + right. split; [discriminate|]. split; [reflexivity|]. exists u.
      split; [reflexivity|]. rewrite (cleanInstagramUrl_parsed _ _ E).
      unfold andThen, tryCatch, lift, hideAlerts, showResults, update, andThen.
      cbn [wasModified]. now destruct (truthy _).
    + left. split; [discriminate|]. split; reflexivity.
  - rewrite (isValidInstagramUrl_unparsed _ E).
    left. split; [discriminate|]. split; reflexivity.
Qed.

Lemma validate_normal (s : jsstring) (p : Page) :
  validateAndCleanUrl s p = (Normal tt, snd (validateAndCleanUrl s p)).
Proof.
  destruct (validate_cases s p) as [[_ ->] | [(_ & _ & ->) | (_ & _ & u & _ & ->)]];
    try reflexivity.
  unfold andThen, hideAlerts, showResults, update, andThen. cbn [wasModified].
  now destruct (truthy _).
Qed.

End PageFacts.

(** ** The cleaning core, beyond the claims *)

Lemma before_first_has_no_separator (sep s : jsstring) :
  sep <> [] -> ~ occurs sep (before_first sep s).
Proof.
  intros Hsep. unfold before_first.
  destruct (cut sep s) as [[pre rest]|] eqn:E.
  - apply cut_some in E as [-> Hmin]. intros (a & b & Hab).
    specialize (Hmin a (b ++ sep ++ rest)). rewrite Hab in Hmin.
    rewrite <- !app_assoc in Hmin. specialize (Hmin eq_refl).
    rewrite !length_app in Hmin. destruct sep as [|x sep]; [congruence|].
    cbn [List.length] in Hmin. lia.
  - now apply cut_none.
Qed.

Lemma before_first_is_prefix (sep s : jsstring) :
  exists tail, s = before_first sep s ++ tail.
Proof.
  unfold before_first. destruct (cut sep s) as [[pre rest]|] eqn:E.
  - apply cut_some in E as [-> _]. eexists; reflexivity.
  - exists []. now rewrite app_nil_r.
Qed.

Lemma removed_text_not_sentinel (segment : jsstring) :
  truthy segment = true -> removed_text segment <> no_tracking.
Proof. unfold removed_text. intros ->. discriminate. Qed.

Section Core.

Context {platform : URLParser}.

(** X1.  [cleanInstagramUrl] throws exactly when the URL constructor
    throws; what it throws is always the error "Failed to parse URL",
    never the constructor's own [TypeError]. *)
Theorem clean_throws_only_parse_error (s : jsstring) :
  (cleanInstagramUrl s = Throw (Error "Failed to parse URL")
   <-> parse_url s = None)
  /\ (forall e, cleanInstagramUrl s = Throw e
                -> e = Error "Failed to parse URL")
  /\ (forall r, cleanInstagramUrl s = Normal r
                -> exists u, parse_url s = Some u).
Proof.
  destruct (parse_url s) as [u|] eqn:E.
  - rewrite (cleanInstagramUrl_parsed _ _ E). repeat split; try discriminate.
    exists u. reflexivity.
  - rewrite (cleanInstagramUrl_unparsed _ E). repeat split; try discriminate.
    now intros e [= <-].
Qed.

(** X2.  When [wasModified] is true, [removed] is text of the input: it
    occurs in the raw string, starts with [/?], and holds no second
    [/?]. *)
Theorem removed_is_part_of_input (s : jsstring) (r : CleaningResult) :
  cleanInstagramUrl s = Normal r -> wasModified r = true ->
  occurs (removed r) s
  /\ exists segment,
      removed r = lit "/?" ++ segment
      /\ segment <> []
      /\ ~ occurs "/?" segment.
Proof.
  intros Hr Hm. destruct (parse_url s) as [u|] eqn:E.
  2: { rewrite (cleanInstagramUrl_unparsed _ E) in Hr. discriminate. }
  rewrite (cleanInstagramUrl_parsed _ _ E) in Hr.
  assert (Hrem : removed r = removed_text (second_piece "/?" s))
    by (injection Hr as <-; reflexivity).
  assert (Hw : wasModified r = truthy (second_piece "/?" s))
    by (injection Hr as <-; reflexivity).
  rewrite Hrem. rewrite Hw in Hm. unfold removed_text. rewrite Hm.
  unfold second_piece in Hm |- *.
  destruct (cut "/?" s) as [[pre rest]|] eqn:Ec; [|discriminate].
  apply cut_some in Ec as [Hs _]. split.
  - destruct (before_first_is_prefix "/?" rest) as [tail Ht].
    exists pre, tail. rewrite Hs. rewrite Ht at 1.
    now rewrite <- !app_assoc.
  - exists (before_first "/?" rest). split; [reflexivity|]. split.
    + intros H. now rewrite H in Hm.
    + apply before_first_has_no_separator. discriminate.
Qed.

(** X3.  When [validateAndCleanUrl] shows a result, the text under it is
    [removed] if the URL was modified and "URL was already clean" if not,
    never the sentinel that [cleanInstagramUrl] computes; and the cleaned
    field is marked [border-success] exactly when the URL was modified. *)
Theorem shown_text_never_sentinel (s : jsstring) (p : Page) :
  s <> [] -> isValidInstagramUrl s = Normal true ->
  exists r p',
    cleanInstagramUrl s = Normal r
    /\ validateAndCleanUrl s p = (Normal tt, p')
    /\ textContent (removedParams p')
       = (if wasModified r then removed r else already_clean)
    /\ textContent (removedParams p') <> no_tracking
    /\ has_class "border-success" (cleanedUrlInput p') = wasModified r.
Proof.
  intros Hs Hv.
  destruct (validate_cases s p)
    as [[H _] | [(_ & H & _) | (_ & _ & u & Hu & Hrun)]];
    [congruence | congruence |].
  rewrite Hrun, (cleanInstagramUrl_parsed _ _ Hu).
  unfold andThen, hideAlerts, showResults, update, andThen.
  cbn [wasModified removed].
  destruct (truthy (second_piece "/?" s)) eqn:Et;
    eexists; eexists; (split; [reflexivity|]); (split; [reflexivity|]);
    cbn [removedParams cleanedUrlInput set_textContent textContent].
  - split; [reflexivity|]. split; [now apply removed_text_not_sentinel|].
    apply has_class_add.
  - split; [reflexivity|]. split; [discriminate|]. apply has_class_remove.
Qed.

Lemma validate_empty_page (p : Page) :
  snd (validateAndCleanUrl [] p)
  = mkPage (classList_remove "border-success" (cleanedUrlInput p))
           (classList_add "d-none" (resultsCard p))
           (classList_add "d-none" (errorAlert p))
           (classList_add "d-none" (successAlert p))
           (errorMessage p) (removedParams p).
Proof. reflexivity. Qed.

Lemma validate_rejected_page (s : jsstring) (p : Page) :
  s <> [] -> isValidInstagramUrl s = Normal false ->
  snd (validateAndCleanUrl s p)
  = mkPage (classList_remove "border-success" (cleanedUrlInput p))
           (classList_add "d-none" (resultsCard p))
           (classList_remove "d-none" (classList_add "d-none" (errorAlert p)))
           (classList_add "d-none" (successAlert p))
           (set_textContent invalid_domain_message (errorMessage p))
           (removedParams p).
Proof.
  intros Hs Hv.
  destruct (validate_cases s p)
    as [[H _] | [(_ & _ & ->) | (_ & H & _)]]; [congruence | | congruence].
  reflexivity.
Qed.

Lemma validate_accepted_page (s : jsstring) (u : URL) (p : Page) :
  s <> [] -> parse_url s = Some u -> isValidInstagramUrl s = Normal true ->
  snd (validateAndCleanUrl s p)
  = mkPage
      ((if truthy (second_piece "/?" s)
        then classList_add "border-success"
        else classList_remove "border-success")
         (set_value (protocol u ++ lit "//" ++ hostname u
                     ++ before_first "/?" (pathname u))
                    (cleanedUrlInput p)))
      (classList_remove "d-none" (resultsCard p))
      (classList_add "d-none" (errorAlert p))
      (classList_add "d-none" (successAlert p))
      (errorMessage p)
      (set_textContent
         (if truthy (second_piece "/?" s)
          then removed_text (second_piece "/?" s) else already_clean)
         (removedParams p)).
Proof.
  intros Hs Hu Hv.
  destruct (validate_cases s p)
    as [[H _] | [(_ & H & _) | (_ & _ & u' & Hu' & ->)]];
    [congruence | congruence |].
  assert (u' = u) by congruence. subst u'.
  unfold andThen, hideAlerts, showResults, update, andThen.
  cbn [wasModified removed cleanUrl].
  now destruct (truthy (second_piece "/?" s)).
Qed.

Lemma validate_settles (s : jsstring) (p : Page) :
  snd (validateAndCleanUrl s (snd (validateAndCleanUrl s p)))
  = snd (validateAndCleanUrl s p).
Proof.
  destruct s as [|c t].
  - rewrite !validate_empty_page. cbn [cleanedUrlInput resultsCard errorAlert
      successAlert errorMessage removedParams].
    now rewrite classList_remove_twice, !classList_add_twice.
  - assert (Hs : c :: t <> []) by discriminate.
    destruct (parse_url (c :: t)) as [u|] eqn:E.
    + pose proof (isValidInstagramUrl_parsed _ _ E) as Hv.
      destruct (array_includes _ _).
      * rewrite !(validate_accepted_page _ _ _ Hs E Hv).
        cbn [cleanedUrlInput resultsCard errorAlert successAlert errorMessage
             removedParams].
        rewrite classList_remove_twice, !classList_add_twice.
        f_equal.
        -- destruct (truthy _).
           ++ now rewrite set_value_classList_add, classList_add_twice.
           ++ now rewrite set_value_classList_remove, classList_remove_twice.
      * rewrite !(validate_rejected_page _ _ Hs Hv).
        cbn [cleanedUrlInput resultsCard errorAlert successAlert errorMessage
             removedParams].
        rewrite classList_remove_twice, !classList_add_twice.
        now rewrite classList_remove_add_remove.
    + pose proof (isValidInstagramUrl_unparsed _ E) as Hv.
      rewrite !(validate_rejected_page _ _ Hs Hv).
      cbn [cleanedUrlInput resultsCard errorAlert successAlert errorMessage
           removedParams].
      rewrite classList_remove_twice, !classList_add_twice.
      now rewrite classList_remove_add_remove.
Qed.

(** X4.  Validating the same input again changes nothing on the page:
    however often [validateAndCleanUrl] is called with one input, the page
    is what the first call left, whatever it was before. *)
Theorem validate_again_changes_nothing (s : jsstring) (p : Page) (n : nat) :
  Nat.iter (S n) (fun q => snd (validateAndCleanUrl s q)) p
  = snd (validateAndCleanUrl s p).
Proof.
  induction n as [|n IH]; [reflexivity|].
  change (Nat.iter (S (S n)) (fun q => snd (validateAndCleanUrl s q)) p)
    with (snd (validateAndCleanUrl s
                 (Nat.iter (S n) (fun q => snd (validateAndCleanUrl s q)) p))).
  rewrite IH. apply validate_settles.
Qed.

(** X5.  An input event runs [handleUrlInput] at once and the debounced
    validation later; the page after both is the page the debounced
    validation alone would give. *)
Theorem immediate_then_debounced (field : jsstring) (p : Page) :
  snd (realTimeValidation field (snd (handleUrlInput field p)))
  = snd (realTimeValidation field p).
Proof.
  unfold realTimeValidation, handleUrlInput.
  destruct (trim field) as [|c t] eqn:E; cbn [truthy].
  - rewrite !validate_empty_page. cbn.
    now rewrite classList_remove_twice, classList_add_twice.
  - apply validate_settles.
Qed.

(** X8.  On an empty or a rejected input [validateAndCleanUrl] hides the
    result without clearing it: the cleaned field keeps the last URL and
    the text under it stays. *)
Theorem rejected_input_keeps_last_result (s : jsstring) (p : Page) :
  s = [] \/ isValidInstagramUrl s = Normal false ->
  value (cleanedUrlInput (snd (validateAndCleanUrl s p)))
  = value (cleanedUrlInput p)
  /\ removedParams (snd (validateAndCleanUrl s p)) = removedParams p
  /\ has_class "d-none" (resultsCard (snd (validateAndCleanUrl s p))) = true.
Proof.
  intros H. destruct s as [|c t].
  - rewrite validate_empty_page. cbn. split; [reflexivity|].
    split; [reflexivity | apply has_class_add].
  - destruct H as [H | H]; [discriminate|].
    assert (Hs : c :: t <> []) by discriminate.
    rewrite (validate_rejected_page _ _ Hs H). cbn.
    split; [reflexivity|]. split; [reflexivity | apply has_class_add].
Qed.

(** X6.  The cleaned URL of an accepted input is accepted in its turn. *)
Theorem cleaned_url_stays_valid {delimits : Delimits platform}
        {normalizes : Normalizes platform} (u : jsstring) :
  isValidInstagramUrl u = Normal true ->
  exists r, cleanInstagramUrl u = Normal r
            /\ isValidInstagramUrl (cleanUrl r) = Normal true.
Proof.
  intros H. apply valid_parses in H as (o & Ho & Hin).
  destruct (reparse_stable _ _ Ho (validDomains_nonempty_host _ Hin))
    as (o' & Ho' & _ & Hh & _).
  rewrite (cleanInstagramUrl_parsed _ _ Ho). eexists. split; [reflexivity|].
  cbv beta iota delta [cleanUrl]. rewrite (pathname_not_split _ _ Ho).
  rewrite (isValidInstagramUrl_parsed _ _ Ho'). now rewrite Hh, Hin.
Qed.

(** X7.  Cleaning a cleaned URL of an accepted input reports nothing to
    remove: [wasModified] is false and [removed] is the sentinel. *)
Theorem cleaned_url_reports_clean {delimits : Delimits platform}
        {normalizes : Normalizes platform} (u : jsstring) :
  isValidInstagramUrl u = Normal true ->
  exists r r',
    cleanInstagramUrl u = Normal r
    /\ cleanInstagramUrl (cleanUrl r) = Normal r'
    /\ wasModified r' = false
    /\ removed r' = no_tracking.
Proof.
  intros H. apply valid_parses in H as (o & Ho & Hin).
  destruct (reparse_stable _ _ Ho (validDomains_nonempty_host _ Hin))
    as (o' & Ho' & _).
  rewrite (cleanInstagramUrl_parsed _ _ Ho). eexists. eexists.
  split; [reflexivity|]. cbv beta iota delta [cleanUrl].
  rewrite (pathname_not_split _ _ Ho).
  rewrite (cleanInstagramUrl_parsed _ _ Ho'). split; [reflexivity|].
  cbn [wasModified removed].
  rewrite second_piece_none; [split; reflexivity|].
  intros Hocc. apply occurs_question in Hocc.
  now destruct (clean_url_delimiter_free _ _ Ho).
Qed.

End Core.

(** ** Copying, clearing, the keyboard *)

Lemma tokens_remove_add (t : jsstring) (l : list jsstring) :
  existsb (str_eqb t) l = false -> tokens_remove t (tokens_add t l) = l.
Proof.
  intros H. unfold tokens_add, tokens_remove. rewrite H, filter_app.
  cbn [filter]. rewrite str_eqb_refl. cbn [negb]. rewrite app_nil_r.
  now apply filter_absent.
Qed.

Lemma take_timer_app (id : nat) (cb : Callback)
      (before after : list (nat * Callback)) :
  (forall n c, In (n, c) before -> n <> id) ->
  take_timer id (before ++ (id, cb) :: after) = Some (cb, before ++ after).
Proof.
  induction before as [|[n c] l IH]; intros H; cbn [take_timer app].
  - now rewrite Nat.eqb_refl.
  - destruct (Nat.eqb_spec n id) as [E | _].
    + exfalso. apply (H n c); [now left | exact E].
    + rewrite IH; [reflexivity|]. intros n' c' Hin. apply (H n' c').
      now right.
Qed.

Lemma take_timer_some (id : nat) (cb : Callback)
      (l rest : list (nat * Callback)) :
  take_timer id l = Some (cb, rest) ->
  exists before after,
    l = before ++ (id, cb) :: after /\ rest = before ++ after.
Proof.
  revert rest. induction l as [|[n c] l IH]; intros rest; cbn [take_timer].
  - discriminate.
  - destruct (Nat.eqb_spec n id) as [-> | _].
    + intros [= <- <-]. now exists [], l.
    + destruct (take_timer id l) as [[found rest']|]; [|discriminate].
      intros [= <- <-]. destruct (IH _ eq_refl) as (b & a & -> & ->).
      now exists ((n, c) :: b), a.
Qed.

Section ShellFacts.

Context {platform : URLParser}.

Lemma handleUrlInput_normal (field : jsstring) (p : Page) :
  fst (handleUrlInput field p) = Normal tt.
Proof.
  unfold handleUrlInput. destruct (truthy (trim field)); [|reflexivity].
  now rewrite validate_normal.
Qed.

Lemma handlePaste_normal (field : jsstring) (p : Page) :
  fst (handlePaste field p) = Normal tt.
Proof.
  unfold handlePaste. destruct (truthy (trim field)); [|reflexivity].
  now rewrite validate_normal.
Qed.

Lemma realTimeValidation_normal (field : jsstring) (p : Page) :
  fst (realTimeValidation field p) = Normal tt.
Proof. unfold realTimeValidation. now rewrite validate_normal. Qed.

Lemma onPage_normal (m : method unit) (a : App) :
  fst (m (ui a)) = Normal tt -> fst (onPage m a) = Normal tt.
Proof. unfold onPage. now destruct (m (ui a)). Qed.

Lemma copyAttempt_normal (copyStep : action unit) (a : App) :
  fst (copyAttempt copyStep a) = Normal tt.
Proof.
  unfold copyAttempt, catchA, thenA, bindA.
  destruct (copyStep a) as [[[]|e] a']; reflexivity.
Qed.

Lemma handleCopy_begin_normal (env : Platform) (a : App) :
  exists progress, fst (handleCopy_begin env a) = Normal progress.
Proof.
  unfold handleCopy_begin.
  destruct (negb _); [now exists Finished|].
  destruct (_ && _); [now exists Awaiting|].
  exists Finished. unfold thenA, bindA.
  pose proof (copyAttempt_normal
                (fallbackCopyToClipboard env (value (cleanedUrlInput (ui a))))
                a) as H.
  destruct (copyAttempt _ a) as [[[]|e] a']; [reflexivity | discriminate].
Qed.

Lemma handleCopy_begin_eq (env : Platform) (a : App) :
  handleCopy_begin env a
  = if negb (truthy (value (cleanedUrlInput (ui a)))) then (Normal Finished, a)
    else if clipboardApi env && isSecureContext env
         then (Normal Awaiting,
               set_writes (writes a ++ [value (cleanedUrlInput (ui a))]) a)
         else (copyAttempt
                 (fallbackCopyToClipboard env (value (cleanedUrlInput (ui a))))
               ;> pure Finished) a.
Proof. reflexivity. Qed.

(** X19.  No listener of the class lets an exception escape: not the
    input, paste, click and key listeners, not the timer callbacks, not
    [handleCopy] before or after its [await]. *)
Theorem no_listener_throws (a : App) :
  fst (inputListener a) = Normal tt
  /\ fst (debounceListener a) = Normal tt
  /\ fst (pasteListener a) = Normal tt
  /\ (forall env, exists progress,
         fst (handleCopy_begin env a) = Normal progress)
  /\ (forall text outcome,
         fst (handleCopy_resume text outcome a) = Normal tt)
  /\ fst (handleClear a) = Normal tt
  /\ (forall ctrlKey metaKey key env, exists prevented,
         fst (handleKeyboard ctrlKey metaKey key env a) = Normal prevented)
  /\ (forall cb, fst (fire cb a) = Normal tt).
Proof.
  split; [apply onPage_normal, handleUrlInput_normal|].
  split; [unfold debounceListener, thenA, bindA; now destruct (timeout a)|].
  split; [reflexivity|].
  split; [intros env; apply handleCopy_begin_normal|].
  split; [intros text outcome; apply copyAttempt_normal|].
  split; [reflexivity|]. split.
  - intros ctrlKey metaKey key env. unfold handleKeyboard, bindA, thenA, bindA.
    destruct ((ctrlKey || metaKey) && str_eqb key "k");
      destruct (str_eqb key "Escape");
      destruct ((ctrlKey || metaKey) && str_eqb key "c");
      cbn [andb handleClear focusOriginalUrlInput selectOriginalUrlInput
           thenA bindA modify pure onPage hideResults hideAlerts update
           activeElement set_activeElement set_selection set_ui
           set_originalUrlInput is_cleanedUrlInput];
      try (now eexists);
      match goal with
      | |- context [is_cleanedUrlInput ?c] =>
          destruct (is_cleanedUrlInput c); [|now eexists]
      end;
      match goal with
      | |- context [handleCopy_begin env ?b] =>
          destruct (handleCopy_begin_normal env b) as [pr Hpr];
          destruct (handleCopy_begin env b) as [[x|e] a']; cbn in Hpr;
          [now eexists | discriminate]
      end.
  - intros [| |h]; cbn [fire].
    + apply onPage_normal, realTimeValidation_normal.
    + apply onPage_normal, handlePaste_normal.
    + reflexivity.
Qed.

(** X11.  [fallbackCopyToClipboard] removes its text area whatever
    [execCommand] does, and leaves the focus on the body; it throws
    exactly what [execCommand] throws, and the clipboard changes only if
    [execCommand] copied. *)
Theorem fallback_cleans_up (env : Platform) (text : jsstring) (a : App) :
  bodyChildren (exec (fallbackCopyToClipboard env text) a) = bodyChildren a
  /\ activeElement (exec (fallbackCopyToClipboard env text) a) = DocumentBody
  /\ fst (fallbackCopyToClipboard env text a)
     = match execCommand env with
       | ExecThrows e => Throw e
       | _ => Normal tt
       end
  /\ clipboard (exec (fallbackCopyToClipboard env text) a)
     = match execCommand env with
       | Copied => text
       | _ => clipboard a
       end.
Proof.
  unfold exec, fallbackCopyToClipboard.
  destruct (execCommand env); cbn; rewrite removelast_last; repeat split.
Qed.

(** X9.  The answer of [execCommand] is not looked at: when it returns
    false, nothing is copied and the success feedback is shown all the
    same. *)
Theorem uncopied_text_reported_copied (env : Platform) (a : App) :
  clipboardApi env && isSecureContext env = false ->
  execCommand env = NotCopied ->
  value (cleanedUrlInput (ui a)) <> [] ->
  clipboard (exec (handleCopy_begin env) a) = clipboard a
  /\ success_alert_shown (exec (handleCopy_begin env) a)
  /\ innerHTML (copyBtn (exec (handleCopy_begin env) a)) = copied_label
  /\ errorAlert (ui (exec (handleCopy_begin env) a)) = errorAlert (ui a).
Proof.
  intros Hapi Hexec Hv. unfold exec, success_alert_shown.
  rewrite handleCopy_begin_eq, Hapi.
  destruct (value (cleanedUrlInput (ui a))) as [|c t] eqn:E; [congruence|].
  cbn [truthy negb].
  unfold copyAttempt, fallbackCopyToClipboard. rewrite Hexec.
  split; [reflexivity|]. split; [|split; reflexivity].
  change (has_class "d-none" (classList_remove "d-none" (successAlert (ui a)))
          = false).
  apply has_class_remove.
Qed.

(** X10.  A copy that fails (the clipboard write is rejected, or
    [execCommand] throws) ends in the error alert with the copy message
    and a line on the console; the clipboard, the button and the timers
    are as before, and nothing is thrown. *)
Theorem copy_failure_is_reported (env : Platform) (outcome : option exn)
        (e : exn) (a : App) :
  value (cleanedUrlInput (ui a)) <> [] ->
  (if clipboardApi env && isSecureContext env
   then outcome = Some e else execCommand env = ExecThrows e) ->
  fst (handleCopy env outcome a) = Normal tt
  /\ error_shown (ui (exec (handleCopy env outcome) a)) copy_failed_message
  /\ console (exec (handleCopy env outcome) a) = console a ++ [copy_failed_log]
  /\ clipboard (exec (handleCopy env outcome) a) = clipboard a
  /\ copyBtn (exec (handleCopy env outcome) a) = copyBtn a
  /\ timers (exec (handleCopy env outcome) a) = timers a
  /\ writes (exec (handleCopy env outcome) a) = writes a
  /\ successAlert (ui (exec (handleCopy env outcome) a)) = successAlert (ui a).
Proof.
  intros Hv Hfail. unfold exec, error_shown.
  remember (handleCopy env outcome a) as result eqn:Hr.
  unfold handleCopy, bindA in Hr. rewrite handleCopy_begin_eq in Hr.
  destruct (value (cleanedUrlInput (ui a))) as [|c t] eqn:E; [congruence|].
  cbn [truthy negb] in Hr.
  destruct (clipboardApi env && isSecureContext env).
  - subst outcome result.
    assert (Hw : removelast (writes a ++ [c :: t]) = writes a)
      by apply removelast_last.
    split; [reflexivity|]. split; [split; [|reflexivity]|].
    + change (has_class "d-none"
                (classList_remove "d-none" (errorAlert (ui a))) = false).
      apply has_class_remove.
    + repeat (split; [reflexivity|]). split; [exact Hw | reflexivity].
  - unfold copyAttempt, fallbackCopyToClipboard in Hr. rewrite Hfail in Hr.
    subst result.
    split; [reflexivity|]. split; [split; [|reflexivity]|].
    + change (has_class "d-none"
                (classList_remove "d-none" (errorAlert (ui a))) = false).
      apply has_class_remove.
    + repeat (split; [reflexivity|]). reflexivity.
Qed.

Lemma step_timer_fired (id : nat) (cb : Callback)
      (before after : list (nat * Callback)) (a : App) :
  timers a = before ++ (id, cb) :: after ->
  (forall n c, In (n, c) before -> n <> id) ->
  step (TimerFired id) a = exec (fire cb) (set_timers (before ++ after) a).
Proof.
  intros Ht Hfresh. cbn [step]. now rewrite Ht, take_timer_app.
Qed.

(** X12.  [showCopySuccess] and its callback undo each other on the
    button: when the callback has run, the button is what it was, the
    timer list is what it was and the success alert is hidden. *)
Theorem copy_button_restored (a : App) :
  existsb (str_eqb "btn-copy-success") (buttonClasses (copyBtn a)) = false ->
  (forall id cb, In (id, cb) (timers a) -> id < nextTimer a) ->
  copyBtn (step (TimerFired (nextTimer a)) (exec showCopySuccess a))
  = copyBtn a
  /\ timers (step (TimerFired (nextTimer a)) (exec showCopySuccess a))
     = timers a
  /\ has_class "d-none"
       (successAlert
          (ui (step (TimerFired (nextTimer a)) (exec showCopySuccess a))))
     = true.
Proof.
  intros Hc Hfresh.
  assert (Ht : timers (exec showCopySuccess a)
               = timers a
                 ++ [(nextTimer a, ResetCopyButton (innerHTML (copyBtn a)))])
    by reflexivity.
  cbn [step]. rewrite Ht, take_timer_app.
  2: { intros n c Hin. apply Hfresh in Hin. lia. }
  rewrite app_nil_r. split; [|split; [reflexivity|]].
  - change (mkButton
              (tokens_remove "btn-copy-success"
                 (tokens_add "btn-copy-success" (buttonClasses (copyBtn a))))
              (innerHTML (copyBtn a)) = copyBtn a).
    rewrite (tokens_remove_add _ _ Hc). now destruct (copyBtn a).
  - change (has_class "d-none"
              (classList_add "d-none"
                 (classList_remove "d-none" (successAlert (ui a)))) = true).
    apply has_class_add.
Qed.

(** X13.  A second [showCopySuccess] before the first callback has run
    takes the label "Copied!" for the original one: when both callbacks
    have run, in the order they were set, the button still says
    "Copied!". *)
Theorem second_copy_keeps_copied_label (a : App) :
  (forall id cb, In (id, cb) (timers a) -> id < nextTimer a) ->
  innerHTML
    (copyBtn
       (run [TimerFired (nextTimer a); TimerFired (S (nextTimer a))]
            (exec showCopySuccess (exec showCopySuccess a))))
  = copied_label
  /\ timers
       (run [TimerFired (nextTimer a); TimerFired (S (nextTimer a))]
            (exec showCopySuccess (exec showCopySuccess a)))
     = timers a.
Proof.
  intros Hfresh.
  assert (Ht : timers (exec showCopySuccess (exec showCopySuccess a))
               = timers a
                 ++ (nextTimer a, ResetCopyButton (innerHTML (copyBtn a)))
                 :: [(S (nextTimer a), ResetCopyButton copied_label)]).
  { cbn. now rewrite <- app_assoc. }
  change (run [TimerFired (nextTimer a); TimerFired (S (nextTimer a))]
              (exec showCopySuccess (exec showCopySuccess a)))
    with (step (TimerFired (S (nextTimer a)))
               (step (TimerFired (nextTimer a))
                     (exec showCopySuccess (exec showCopySuccess a)))).
  rewrite (step_timer_fired _ _ _ _ _ Ht).
  2: { intros n c Hin. apply Hfresh in Hin. lia. }
  match goal with
  | |- context [step _ ?s1] =>
      assert (Ht1 : timers s1
                    = timers a
                      ++ [(S (nextTimer a), ResetCopyButton copied_label)])
        by reflexivity;
      rewrite (step_timer_fired _ _ _ _ _ Ht1)
  end.
  2: { intros n c Hin. apply Hfresh in Hin. lia. }
  split; [reflexivity|]. apply app_nil_r.
Qed.

End ShellFacts.

Section KeyboardAndClear.

Context {platform : URLParser}.

Lemma exec_then_pure {A B} (m : action A) (x : B) (a : App) :
  exec (m ;> pure x) a = exec m a.
Proof.
  unfold exec, thenA, bindA, pure. now destruct (m a) as [[y|e] a'].
Qed.

Lemma fst_then_pure {A B} (m : action A) (x : B) (y : A) (a : App) :
  fst (m a) = Normal y -> fst ((m ;> pure x) a) = Normal x.
Proof.
  unfold thenA, bindA, pure. destruct (m a) as [[z|e] a']; [reflexivity|].
  discriminate.
Qed.

(** X14.  [handleKeyboard] calls [preventDefault] exactly for Ctrl/Cmd+K
    and for Ctrl/Cmd+C with the focus on the cleaned field; a key that is
    neither of these nor Escape changes nothing. *)
Theorem preventDefault_exactly (ctrlKey metaKey : bool) (key : jsstring)
        (env : Platform) (a : App) :
  fst (handleKeyboard ctrlKey metaKey key env a)
  = Normal ((ctrlKey || metaKey)
            && (str_eqb key "k"
                || str_eqb key "c" && is_cleanedUrlInput (activeElement a)))
  /\ (str_eqb key "Escape" = false ->
      (ctrlKey || metaKey)
      && (str_eqb key "k"
          || str_eqb key "c" && is_cleanedUrlInput (activeElement a)) = false ->
      exec (handleKeyboard ctrlKey metaKey key env) a = a).
Proof.
  unfold exec, handleKeyboard, bindA.
  destruct (str_eqb key "k") eqn:Ek;
    destruct (str_eqb key "Escape") eqn:Ee;
    destruct (str_eqb key "c") eqn:Ec;
    try (apply str_eqb_eq in Ek; apply str_eqb_eq in Ee;
         rewrite Ek in Ee; discriminate);
    try (apply str_eqb_eq in Ek; apply str_eqb_eq in Ec;
         rewrite Ek in Ec; discriminate);
    try (apply str_eqb_eq in Ee; apply str_eqb_eq in Ec;
         rewrite Ee in Ec; discriminate);
    clear Ek Ee Ec; destruct (ctrlKey || metaKey);
    cbn [andb orb pure thenA bindA modify focusOriginalUrlInput
         selectOriginalUrlInput handleClear onPage hideResults hideAlerts
         update activeElement set_activeElement set_selection set_ui
         set_originalUrlInput is_cleanedUrlInput fst snd];
    (split; [|try discriminate]); try reflexivity.
  - destruct (is_cleanedUrlInput (activeElement a)); [|reflexivity].
    destruct (handleCopy_begin_normal env a) as [progress H].
    now apply (fst_then_pure _ _ progress).
  - intros _ H. now rewrite H.
Qed.

Lemma handleClear_page (a : App) :
  exec handleClear a
  = mkApp (mkPage (classList_remove "border-success" (cleanedUrlInput (ui a)))
                  (classList_add "d-none" (resultsCard (ui a)))
                  (classList_add "d-none" (errorAlert (ui a)))
                  (classList_add "d-none" (successAlert (ui a)))
                  (errorMessage (ui a)) (removedParams (ui a)))
          (set_value [] (originalUrlInput a)) (copyBtn a) OriginalUrlInput
          (selection a) (clipboard a) (bodyChildren a) (console a)
          (timers a) (nextTimer a) (timeout a) (writes a).
Proof. reflexivity. Qed.

(** X15.  [handleClear] cancels no timer, but the validations that still
    wait for theirs find the field empty and change nothing: the page
    stays cleared. *)
Theorem clear_outlasts_pending_validations (cb : Callback) (a : App) :
  is_ResetCopyButton cb = false ->
  timers (exec handleClear a) = timers a
  /\ exec (fire cb) (exec handleClear a) = exec handleClear a
  /\ results_hidden (ui (exec handleClear a))
  /\ error_hidden (ui (exec handleClear a))
  /\ value (originalUrlInput (exec handleClear a)) = [].
Proof.
  intros Hcb. rewrite handleClear_page. split; [reflexivity|]. split.
  - destruct cb as [| |h]; [| reflexivity | discriminate].
    unfold exec, fire, onPage, realTimeValidation.
    cbn [originalUrlInput value set_value ui].
    change (trim []) with (@nil ascii).
    rewrite (surjective_pairing (validateAndCleanUrl [] _)).
    rewrite validate_empty_page. cbn [snd set_ui ui originalUrlInput copyBtn
      activeElement selection clipboard bodyChildren console timers nextTimer
      timeout writes cleanedUrlInput resultsCard errorAlert successAlert
      errorMessage removedParams].
    now rewrite classList_remove_twice, !classList_add_twice.
  - split; [apply has_class_add|]. split; [apply has_class_add | reflexivity].
Qed.

End KeyboardAndClear.

(** ** The machine: what every run keeps true *)

Lemma NoDup_map_filter {A B} (f : A -> B) (g : A -> bool) (l : list A) :
  NoDup (map f l) -> NoDup (map f (filter g l)).
Proof.
  induction l as [|x l IH]; cbn [map filter]; [trivial|].
  intros H. inversion H as [|? ? Hx Hl]; subst.
  destruct (g x); [|now apply IH]. cbn [map]. constructor; [|now apply IH].
  intros Hin. apply Hx. apply in_map_iff in Hin as (y & <- & Hy).
  apply filter_In in Hy as [Hy _]. now apply in_map.
Qed.

Lemma NoDup_constant {A} (x : A) (l : list A) :
  NoDup l -> (forall y, In y l -> y = x) -> List.length l <= 1.
Proof.
  intros Hn Hall. destruct l as [|y [|z l]]; cbn [List.length]; try lia.
  exfalso. inversion Hn as [|? ? Hy _]; subst. apply Hy. left.
  rewrite (Hall y), (Hall z); [reflexivity | right; now left | now left].
Qed.

Lemma NoDup_snoc {A} (x : A) (l : list A) :
  NoDup l -> ~ In x l -> NoDup (l ++ [x]).
Proof.
  induction l as [|y l IH]; cbn [app]; intros Hn Hx.
  - constructor; [intros [] | constructor].
  - inversion Hn as [|? ? Hy Hl]; subst. constructor.
    + intros Hin. apply in_app_or in Hin as [Hin | [<- | []]];
        [now apply Hy | apply Hx; now left].
    + apply IH; [exact Hl | intros Hin; apply Hx; now right].
Qed.

Lemma in_without_middle {A} (x y : A) (before after : list A) :
  In x (before ++ y :: after) -> x <> y -> In x (before ++ after).
Proof.
  intros Hin Hne. apply in_or_app.
  apply in_app_or in Hin as [Hin | [-> | Hin]]; [now left | easy | now right].
Qed.

Lemma in_with_middle {A} (x y : A) (before after : list A) :
  In x (before ++ after) -> In x (before ++ y :: after).
Proof.
  intros Hin. apply in_or_app.
  apply in_app_or in Hin as [Hin | Hin]; [now left | right; now right].
Qed.

Section Machine.

Context {platform : URLParser}.

Lemma transition_refl (a : App) : transition a a.
Proof. now apply Kept. Qed.

Lemma copyAttempt_transition (copyStep : action unit) (a : App) :
  ui (exec copyStep a) = ui a -> timers (exec copyStep a) = timers a ->
  nextTimer (exec copyStep a) = nextTimer a ->
  timeout (exec copyStep a) = timeout a ->
  transition a (exec (copyAttempt copyStep) a).
Proof.
  unfold exec, copyAttempt, catchA, thenA, bindA.
  destruct (copyStep a) as [[[]|e] a1]; cbn [snd]; intros Hu Ht Hn Ho.
  - apply (CopySucceeded _ _ (innerHTML (copyBtn a1))).
    + transitivity (snd (showSuccessAlert (ui a1)));
        [reflexivity | now rewrite Hu].
    + transitivity (timers a1 ++ [(nextTimer a1,
                                   ResetCopyButton (innerHTML (copyBtn a1)))]);
        [reflexivity | now rewrite Ht, Hn].
    + transitivity (S (nextTimer a1)); [reflexivity | now rewrite Hn].
    + transitivity (timeout a1); [reflexivity | exact Ho].
  - apply CopyFailed.
    + transitivity (snd (showError copy_failed_message (ui a1)));
        [reflexivity | now rewrite Hu].
    + transitivity (timers a1); [reflexivity | exact Ht].
    + transitivity (nextTimer a1); [reflexivity | exact Hn].
    + transitivity (timeout a1); [reflexivity | exact Ho].
Qed.

Lemma handleCopy_begin_transition (env : Platform) (a : App) :
  transition a (exec (handleCopy_begin env) a).
Proof.
  unfold exec. rewrite handleCopy_begin_eq.
  destruct (negb _); [apply transition_refl|].
  destruct (_ && _); [now apply Kept|].
  fold (exec (copyAttempt
                (fallbackCopyToClipboard env (value (cleanedUrlInput (ui a))))
              ;> pure Finished) a).
  rewrite exec_then_pure.
  apply copyAttempt_transition; unfold exec, fallbackCopyToClipboard;
    now destruct (execCommand env).
Qed.

Lemma handleCopy_resume_transition (text : jsstring) (outcome : option exn)
      (a : App) :
  transition a (exec (handleCopy_resume text outcome) a).
Proof.
  apply copyAttempt_transition; now destruct outcome.
Qed.

Lemma handleClear_transition (a : App) : transition a (exec handleClear a).
Proof. now apply Cleared. Qed.

Lemma handleKeyboard_stages (ctrlKey metaKey : bool) (key : jsstring)
      (env : Platform) (a : App) :
  exists a1 a2,
    (a1 = a \/ a1 = set_selection (Some OriginalUrlInput)
                                  (set_activeElement OriginalUrlInput a))
    /\ (a2 = a1 \/ a2 = exec handleClear a1)
    /\ (exec (handleKeyboard ctrlKey metaKey key env) a = a2
        \/ exec (handleKeyboard ctrlKey metaKey key env) a
           = exec (handleCopy_begin env) a2).
Proof.
  unfold exec at 2 3, handleKeyboard, bindA.
  destruct ((ctrlKey || metaKey) && str_eqb key "k");
    destruct (str_eqb key "Escape");
    destruct ((ctrlKey || metaKey) && str_eqb key "c");
    cbn [andb orb pure thenA bindA modify focusOriginalUrlInput
         selectOriginalUrlInput handleClear onPage hideResults hideAlerts
         update activeElement set_activeElement set_selection set_ui
         set_originalUrlInput is_cleanedUrlInput fst snd];
    try (eexists; eexists; split; [right; reflexivity|];
         split; [right; reflexivity|]; left; reflexivity);
    try (eexists; eexists; split; [right; reflexivity|];
         split; [left; reflexivity|]; left; reflexivity);
    try (eexists; eexists; split; [left; reflexivity|];
         split; [right; reflexivity|]; left; reflexivity);
    try (eexists; eexists; split; [left; reflexivity|];
         split; [left; reflexivity|]; left; reflexivity).
  all: match goal with
       | |- context [is_cleanedUrlInput ?c] => destruct (is_cleanedUrlInput c)
       end.
  all: try (eexists; eexists; split; [left; reflexivity|];
            split; [left; reflexivity|]; left; reflexivity).
  all: eexists; eexists; (split; [left; reflexivity|]);
    (split; [left; reflexivity|]); right;
    match goal with
    | |- snd ((?m ;> pure ?x) ?b) = _ => exact (exec_then_pure m x b)
    end.
Qed.

Lemma fire_transition (id : nat) (cb : Callback)
      (before after : list (nat * Callback)) (a : App) :
  timers a = before ++ (id, cb) :: after ->
  transition a (exec (fire cb) (set_timers (before ++ after) a)).
Proof.
  intros Ht.
  apply (Fired _ _ id cb before after (value (originalUrlInput a)) Ht);
    destruct cb as [| |h]; try reflexivity;
    unfold exec, fire, onPage, callback_on_page;
    cbn [ui set_timers originalUrlInput];
    match goal with
    | |- context [let (r, p) := ?m in _] => now destruct m
    end.
Qed.

Lemma step_transitions (e : Event) (a : App) :
  exists a1 a2,
    transition a a1 /\ transition a1 a2 /\ transition a2 (step e a).
Proof.
  destruct e as [text | | env | | ctrlKey metaKey key env | c | id | n outcome].
  - exists a, a. split; [apply transition_refl|].
    split; [apply transition_refl|].
    apply (Debounced _ _ text); cbn [step];
      unfold exec, debounceListener, inputListener, onPage;
      cbn [originalUrlInput set_originalUrlInput value set_value ui];
      destruct (handleUrlInput text (ui a)) as [r p]; cbn [snd];
      unfold thenA, bindA; cbn [timeout set_ui set_originalUrlInput];
      now destruct (timeout a).
  - exists a, a. split; [apply transition_refl|].
    split; [apply transition_refl|]. now apply PasteScheduled.
  - exists a, a. split; [apply transition_refl|].
    split; [apply transition_refl|]. apply handleCopy_begin_transition.
  - exists a, a. split; [apply transition_refl|].
    split; [apply transition_refl|]. apply handleClear_transition.
  - destruct (handleKeyboard_stages ctrlKey metaKey key env a)
      as (a1 & a2 & H1 & H2 & H3).
    exists a1, a2. cbn [step]. split; [|split].
    + destruct H1 as [-> | ->]; [apply transition_refl | now apply Kept].
    + destruct H2 as [-> | ->];
        [apply transition_refl | apply handleClear_transition].
    + destruct H3 as [-> | ->];
        [apply transition_refl | apply handleCopy_begin_transition].
  - exists a, a. split; [apply transition_refl|].
    split; [apply transition_refl|]. now apply Kept.
  - exists a, a. split; [apply transition_refl|].
    split; [apply transition_refl|]. cbn [step].
    destruct (take_timer id (timers a)) as [[cb rest]|] eqn:E;
      [|apply transition_refl].
    apply take_timer_some in E as (before & after & Ht & ->).
    now apply (fire_transition id).
  - exists a, (set_writes
                 match take_nth n (writes a) with
                 | Some (_, rest) => rest
                 | None => writes a
                 end a).
    split; [apply transition_refl|]. split; [now apply Kept|]. cbn [step].
    destruct (take_nth n (writes a)) as [[text rest]|].
    + apply handleCopy_resume_transition.
    + now apply Kept.
Qed.

(** *** Timers *)

Lemma consistent_started (a : App) : started a -> timers_consistent a.
Proof.
  intros [Ht Ho]. unfold timers_consistent. rewrite Ht, Ho.
  split; [intros id cb []|]. split; [constructor|].
  split; [intros id []|]. discriminate.
Qed.

Lemma consistent_same (a a' : App) :
  timers a' = timers a -> nextTimer a' = nextTimer a ->
  timeout a' = timeout a -> timers_consistent a -> timers_consistent a'.
Proof. unfold timers_consistent. now intros -> -> ->. Qed.

Lemma consistent_scheduled (cb : Callback) (a a' : App) :
  is_ValidateField cb = false ->
  timers a' = timers a ++ [(nextTimer a, cb)] ->
  nextTimer a' = S (nextTimer a) -> timeout a' = timeout a ->
  timers_consistent a -> timers_consistent a'.
Proof.
  unfold timers_consistent. intros Hcb -> -> -> (Hlt & Hnd & Hv & Ho).
  split; [|split; [|split]].
  - intros id c Hin. apply in_app_or in Hin as [Hin | [[= <- <-] | []]];
      [apply Hlt in Hin; lia | lia].
  - rewrite map_app. apply NoDup_snoc; [exact Hnd|]. cbn [map fst].
    intros Hin. apply in_map_iff in Hin as ([n c] & Hn & Hin).
    cbn [fst] in Hn. subst n. apply Hlt in Hin. lia.
  - intros id Hin. apply in_app_or in Hin as [Hin | [[= _ Heq] | []]];
      [now apply Hv | rewrite Heq in Hcb; discriminate].
  - intros id Hid. destruct (Ho id Hid) as [Hlt' Honly]. split; [lia|].
    intros c Hin. apply in_app_or in Hin as [Hin | [[= <- <-] | []]];
      [now apply Honly | lia].
Qed.

Lemma consistent_debounced (a a' : App) :
  timers a'
  = match timeout a with
    | Some n => filter (fun t => negb (Nat.eqb (fst t) n)) (timers a)
    | None => timers a
    end ++ [(nextTimer a, ValidateField)] ->
  nextTimer a' = S (nextTimer a) -> timeout a' = Some (nextTimer a) ->
  timers_consistent a -> timers_consistent a'.
Proof.
  unfold timers_consistent. intros -> -> -> (Hlt & Hnd & Hv & Ho).
  set (kept := match timeout a with
               | Some n => filter (fun t => negb (Nat.eqb (fst t) n)) (timers a)
               | None => timers a
               end).
  assert (Hsub : forall x, In x kept -> In x (timers a)).
  { intros x. unfold kept. destruct (timeout a); [|trivial].
    intros Hin. now apply filter_In in Hin. }
  assert (Hno : forall id, ~ In (id, ValidateField) kept).
  { intros id Hin. pose proof (Hv id (Hsub _ Hin)) as Hid.
    unfold kept in Hin. rewrite Hid in Hin.
    apply filter_In in Hin as [_ Hne]. cbn [fst] in Hne.
    now rewrite Nat.eqb_refl in Hne. }
  split; [|split; [|split]].
  - intros id c Hin. apply in_app_or in Hin as [Hin | [[= <- <-] | []]];
      [apply Hsub, Hlt in Hin; lia | lia].
  - rewrite map_app. apply NoDup_snoc.
    + unfold kept. destruct (timeout a); [|exact Hnd].
      now apply NoDup_map_filter.
    + cbn [map fst]. intros Hin.
      apply in_map_iff in Hin as ([n c] & Hn & Hin). cbn [fst] in Hn.
      subst n. apply Hsub, Hlt in Hin. lia.
  - intros id Hin. apply in_app_or in Hin as [Hin | [[= <-] | []]];
      [now apply Hno in Hin | reflexivity].
  - intros id [= <-]. split; [lia|]. intros c Hin.
    apply in_app_or in Hin as [Hin | [[= <-] | []]]; [|reflexivity].
    apply Hsub, Hlt in Hin. lia.
Qed.

Lemma consistent_fired (id : nat) (cb : Callback)
      (before after : list (nat * Callback)) (a a' : App) :
  timers a = before ++ (id, cb) :: after -> timers a' = before ++ after ->
  nextTimer a' = nextTimer a -> timeout a' = timeout a ->
  timers_consistent a -> timers_consistent a'.
Proof.
  unfold timers_consistent. intros Ht -> -> -> (Hlt & Hnd & Hv & Ho).
  rewrite Ht in Hlt, Hnd, Hv, Ho.
  split; [|split; [|split]].
  - intros n c Hin. apply (Hlt n c). now apply in_with_middle.
  - rewrite map_app in Hnd |- *. cbn [map] in Hnd.
    now apply NoDup_remove_1 in Hnd.
  - intros n Hin. apply Hv. now apply in_with_middle.
  - intros n Hn. destruct (Ho n Hn) as [Hlt' Honly]. split; [exact Hlt'|].
    intros c Hin. apply Honly. now apply in_with_middle.
Qed.

Lemma consistent_transition (a a' : App) :
  transition a a' -> timers_consistent a -> timers_consistent a'.
Proof.
  intros [Hu Ht Hn Ho | h Hu Ht Hn Ho | Hu Ht Hn Ho | Hu Ht Hn Ho
          | field Hu Ht Hn Ho | Hu Ht Hn Ho
          | id cb before after field Hb Hu Ht Hn Ho].
  - now apply consistent_same.
  - now apply (consistent_scheduled (ResetCopyButton h)).
  - now apply consistent_same.
  - now apply consistent_same.
  - now apply consistent_debounced.
  - now apply (consistent_scheduled CheckPaste).
  - now apply (consistent_fired id cb before after).
Qed.

Lemma consistent_one_validation (a : App) :
  timers_consistent a -> pending_validations a <= 1.
Proof.
  intros (_ & Hnd & Hv & _). unfold pending_validations.
  rewrite <- (length_map fst).
  destruct (filter (fun t => is_ValidateField (snd t)) (timers a))
    as [|[n c] l] eqn:E; [cbn; lia|].
  rewrite <- E. apply (NoDup_constant n).
  - now apply NoDup_map_filter.
  - intros y Hy. apply in_map_iff in Hy as ([m d] & <- & Hin).
    apply filter_In in Hin as [Hin Hd]. cbn [snd fst] in *.
    destruct d; try discriminate.
    assert (Hn : In (n, c) (filter (fun t => is_ValidateField (snd t))
                                   (timers a)))
      by (rewrite E; now left).
    apply filter_In in Hn as [Hn Hc]. cbn [snd] in Hc.
    destruct c; try discriminate.
    apply Hv in Hin. apply Hv in Hn. congruence.
Qed.

Lemma run_invariant (I : App -> Prop) :
  (forall a a', transition a a' -> I a -> I a') ->
  forall events a, I a -> I (run events a).
Proof.
  intros Hstep events. induction events as [|e events IH]; intros a Ha.
  - exact Ha.
  - cbn [run fold_left]. apply IH.
    destruct (step_transitions e a) as (a1 & a2 & H1 & H2 & H3).
    eauto.
Qed.

(** X16.  However the events fall, at most one debounced validation waits
    for its timer: each input event cancels the one before. *)
Theorem at_most_one_validation_pending (events : list Event) (a : App) :
  started a -> pending_validations (run events a) <= 1.
Proof.
  intros Hs. apply consistent_one_validation.
  apply (run_invariant timers_consistent consistent_transition).
  now apply consistent_started.
Qed.

(** *** The alerts *)

Lemma validate_hides (s : jsstring) (p : Page) :
  has_class "d-none" (successAlert (snd (validateAndCleanUrl s p))) = true
  /\ (has_class "d-none" (resultsCard (snd (validateAndCleanUrl s p))) = true
      \/ has_class "d-none" (errorAlert (snd (validateAndCleanUrl s p)))
         = true).
Proof.
  destruct s as [|c t].
  - rewrite validate_empty_page. cbn [successAlert resultsCard].
    split; [|left]; apply has_class_add.
  - assert (Hs : c :: t <> []) by discriminate.
    destruct (parse_url (c :: t)) as [u|] eqn:E.
    + pose proof (isValidInstagramUrl_parsed _ _ E) as Hv.
      destruct (array_includes _ _).
      * rewrite (validate_accepted_page _ _ _ Hs E Hv).
        cbn [successAlert errorAlert]. split; [|right]; apply has_class_add.
      * rewrite (validate_rejected_page _ _ Hs Hv).
        cbn [successAlert resultsCard]. split; [|left]; apply has_class_add.
    + pose proof (isValidInstagramUrl_unparsed _ E) as Hv.
      rewrite (validate_rejected_page _ _ Hs Hv).
      cbn [successAlert resultsCard]. split; [|left]; apply has_class_add.
Qed.

Lemma copy_error_validate (s : jsstring) (p : Page) :
  error_beside_results_is_copy_error (snd (validateAndCleanUrl s p)).
Proof.
  intros He Hr. destruct (validate_hides s p) as [_ [H | H]]; congruence.
Qed.

Lemma copy_error_hideResults (p : Page) :
  error_beside_results_is_copy_error (snd (hideResults p)).
Proof.
  intros _ Hr.
  change (has_class "d-none" (classList_add "d-none" (resultsCard p)) = false)
    in Hr.
  now rewrite has_class_add in Hr.
Qed.

Lemma copy_error_handleUrlInput (field : jsstring) (p : Page) :
  error_beside_results_is_copy_error (snd (handleUrlInput field p)).
Proof.
  unfold handleUrlInput. destruct (truthy (trim field)).
  - apply copy_error_validate.
  - apply copy_error_hideResults.
Qed.

Lemma copy_error_transition (a a' : App) :
  transition a a' ->
  error_beside_results_is_copy_error (ui a) ->
  error_beside_results_is_copy_error (ui a').
Proof.
  intros [Hu Ht Hn Ho | h Hu Ht Hn Ho | Hu Ht Hn Ho | Hu Ht Hn Ho
          | field Hu Ht Hn Ho | Hu Ht Hn Ho
          | id cb before after field Hb Hu Ht Hn Ho] H; rewrite Hu.
  - exact H.
  - exact H.
  - intros _ _. reflexivity.
  - intros _ Hr.
    change (has_class "d-none" (classList_add "d-none" (resultsCard (ui a)))
            = false) in Hr.
    now rewrite has_class_add in Hr.
  - apply copy_error_handleUrlInput.
  - exact H.
  - destruct cb as [| |h]; unfold callback_on_page.
    + apply copy_error_validate.
    + unfold handlePaste. destruct (truthy (trim field)); [|exact H].
      apply copy_error_validate.
    + exact H.
Qed.

(** X17.  However the events fall, an error alert is never displayed next
    to a result, unless it is the error of a failed copy: every validation
    hides the one or the other. *)
Theorem validation_error_never_beside_results (events : list Event) (a : App) :
  error_beside_results_is_copy_error (ui a) ->
  error_beside_results_is_copy_error (ui (run events a)).
Proof.
  apply (run_invariant (fun a => error_beside_results_is_copy_error (ui a))).
  exact copy_error_transition.
Qed.

Lemma success_hidden_not_shown (a : App) :
  has_class "d-none" (successAlert (ui a)) = true ->
  success_alert_shown a -> reset_pending a.
Proof. unfold success_alert_shown. congruence. Qed.

Lemma reset_transition (a a' : App) :
  transition a a' ->
  timers_consistent a /\ (success_alert_shown a -> reset_pending a) ->
  timers_consistent a' /\ (success_alert_shown a' -> reset_pending a').
Proof.
  intros Htr [Hc Hs]. split; [now apply (consistent_transition a)|].
  destruct Htr as [Hu Ht Hn Ho | h Hu Ht Hn Ho | Hu Ht Hn Ho | Hu Ht Hn Ho
                   | field Hu Ht Hn Ho | Hu Ht Hn Ho
                   | id cb before after field Hb Hu Ht Hn Ho].
  - unfold success_alert_shown, reset_pending in *. now rewrite Hu, Ht.
  - intros _. exists (nextTimer a), h. rewrite Ht. apply in_or_app.
    right. now left.
  - unfold success_alert_shown, reset_pending in *. now rewrite Hu, Ht.
  - apply success_hidden_not_shown. rewrite Hu.
    change (has_class "d-none"
              (classList_add "d-none" (successAlert (ui a))) = true).
    apply has_class_add.
  - unfold handleUrlInput in Hu. destruct (truthy (trim field)).
    + apply success_hidden_not_shown. rewrite Hu. apply validate_hides.
    + intros Hshown. destruct Hs as (n & h & Hin).
      { unfold success_alert_shown in *. now rewrite Hu in Hshown. }
      exists n, h. rewrite Ht. apply in_or_app. left.
      destruct (timeout a) as [m|] eqn:Em; [|exact Hin].
      apply filter_In. split; [exact Hin|]. cbn [fst].
      destruct (Nat.eqb_spec n m) as [-> | _]; [|reflexivity].
      destruct Hc as (_ & _ & _ & Ho').
      destruct (Ho' m Em) as [_ Honly]. now apply Honly in Hin.
  - intros Hshown. destruct Hs as (n & h & Hin).
    { unfold success_alert_shown in *. now rewrite Hu in Hshown. }
    exists n, h. rewrite Ht. apply in_or_app. now left.
  - destruct cb as [| |h]; unfold callback_on_page in Hu.
    + apply success_hidden_not_shown. rewrite Hu. apply validate_hides.
    + unfold handlePaste in Hu. destruct (truthy (trim field)).
      * apply success_hidden_not_shown. rewrite Hu. apply validate_hides.
      * intros Hshown. destruct Hs as (n & h & Hin).
        { unfold success_alert_shown in *. now rewrite Hu in Hshown. }
        exists n, h. rewrite Ht. rewrite Hb in Hin.
        apply (in_without_middle _ _ _ _ Hin). discriminate.
    + apply success_hidden_not_shown. rewrite Hu.
      change (has_class "d-none"
                (classList_add "d-none" (successAlert (ui a))) = true).
      apply has_class_add.
Qed.

(** X18.  However the events fall, the success alert is on display only
    while a callback of [showCopySuccess] waits to hide it: the debounce
    never cancels that callback, and every other way of hiding the alert
    leaves it hidden. *)
Theorem success_alert_has_reset_pending (events : list Event) (a : App) :
  started a ->
  has_class "d-none" (successAlert (ui a)) = true ->
  success_alert_shown (run events a) -> reset_pending (run events a).
Proof.
  intros Hs Hh.
  apply (run_invariant
           (fun a => timers_consistent a
                     /\ (success_alert_shown a -> reset_pending a))
           reset_transition).
  split; [now apply consistent_started|].
  now apply success_hidden_not_shown.
Qed.

End Machine.

(** ** The properties at work, on the reference parser *)

Module Examples.

Import Inputs.

Lemma removed_is_part_of_input_witness :
  exists r,
    cleanInstagramUrl (platform := reference_parser) upper_host = Normal r
    /\ wasModified r = true
    /\ occurs (removed r) upper_host
    /\ exists segment,
        removed r = lit "/?" ++ segment
        /\ segment <> []
        /\ ~ occurs "/?" segment.
Proof.
  eexists. split; [reflexivity|]. split; [reflexivity|].
  apply (removed_is_part_of_input (platform := reference_parser) upper_host);
    reflexivity.
Defined.

Lemma shown_text_never_sentinel_witness :
  upper_host <> []
  /\ isValidInstagramUrl (platform := reference_parser) upper_host
     = Normal true
  /\ exists r p',
      cleanInstagramUrl upper_host = Normal r
      /\ validateAndCleanUrl upper_host empty_page = (Normal tt, p')
      /\ textContent (removedParams p')
         = (if wasModified r then removed r else already_clean)
      /\ textContent (removedParams p') <> no_tracking
      /\ has_class "border-success" (cleanedUrlInput p') = wasModified r.
Proof.
  assert (Hs : upper_host <> []) by discriminate.
  split; [exact Hs|]. split; [reflexivity|].
  apply (shown_text_never_sentinel (platform := reference_parser));
    [exact Hs | reflexivity].
Defined.

Lemma cleaned_url_stays_valid_witness :
  isValidInstagramUrl (platform := reference_parser) upper_host = Normal true
  /\ exists r, cleanInstagramUrl upper_host = Normal r
               /\ isValidInstagramUrl (cleanUrl r) = Normal true.
Proof.
  split; [reflexivity|].
  apply (cleaned_url_stays_valid (delimits := reference_delimits)
                                 (normalizes := reference_normalizes)).
  reflexivity.
Defined.

Lemma cleaned_url_reports_clean_witness :
  isValidInstagramUrl (platform := reference_parser) upper_host = Normal true
  /\ exists r r',
      cleanInstagramUrl upper_host = Normal r
      /\ cleanInstagramUrl (cleanUrl r) = Normal r'
      /\ wasModified r' = false
      /\ removed r' = no_tracking.
Proof.
  split; [reflexivity|].
  apply (cleaned_url_reports_clean (delimits := reference_delimits)
                                   (normalizes := reference_normalizes)).
  reflexivity.
Defined.

Lemma rejected_input_keeps_last_result_witness :
  isValidInstagramUrl (platform := reference_parser) "https://example.com/"
  = Normal false
  /\ value (cleanedUrlInput
              (snd (validateAndCleanUrl "https://example.com/"
                                        (ui example_result))))
     = value (cleanedUrlInput (ui example_result))
  /\ removedParams (snd (validateAndCleanUrl "https://example.com/"
                                             (ui example_result)))
     = removedParams (ui example_result)
  /\ has_class "d-none"
       (resultsCard (snd (validateAndCleanUrl "https://example.com/"
                                              (ui example_result))))
     = true.
Proof.
  split; [reflexivity|].
  apply (rejected_input_keeps_last_result (platform := reference_parser)).
  right. reflexivity.
Defined.

Lemma uncopied_text_reported_copied_witness :
  clipboardApi deaf_browser && isSecureContext deaf_browser = false
  /\ execCommand deaf_browser = NotCopied
  /\ value (cleanedUrlInput (ui example_result)) <> []
  /\ clipboard (exec (handleCopy_begin deaf_browser) example_result)
     = clipboard example_result
  /\ success_alert_shown (exec (handleCopy_begin deaf_browser) example_result)
  /\ innerHTML (copyBtn (exec (handleCopy_begin deaf_browser) example_result))
     = copied_label
  /\ errorAlert (ui (exec (handleCopy_begin deaf_browser) example_result))
     = errorAlert (ui example_result).
Proof.
  assert (Hv : value (cleanedUrlInput (ui example_result)) <> [])
    by discriminate.
  split; [reflexivity|]. split; [reflexivity|]. split; [exact Hv|].
  apply uncopied_text_reported_copied; [reflexivity | reflexivity | exact Hv].
Defined.

Lemma copy_failure_is_reported_witness :
  value (cleanedUrlInput (ui example_result)) <> []
  /\ execCommand failing_browser = ExecThrows TypeError
  /\ fst (handleCopy failing_browser None example_result) = Normal tt
  /\ error_shown (ui (exec (handleCopy failing_browser None) example_result))
                 copy_failed_message
  /\ console (exec (handleCopy failing_browser None) example_result)
     = console example_result ++ [copy_failed_log]
  /\ clipboard (exec (handleCopy failing_browser None) example_result)
     = clipboard example_result
  /\ copyBtn (exec (handleCopy failing_browser None) example_result)
     = copyBtn example_result
  /\ timers (exec (handleCopy failing_browser None) example_result)
     = timers example_result
  /\ writes (exec (handleCopy failing_browser None) example_result)
     = writes example_result
  /\ successAlert (ui (exec (handleCopy failing_browser None) example_result))
     = successAlert (ui example_result).
Proof.
  assert (Hv : value (cleanedUrlInput (ui example_result)) <> [])
    by discriminate.
  split; [exact Hv|]. split; [reflexivity|].
  apply (copy_failure_is_reported failing_browser None TypeError);
    [exact Hv | reflexivity].
Defined.

Lemma copy_button_restored_witness :
  copyBtn (step (TimerFired (nextTimer example_app))
                (exec showCopySuccess example_app))
  = copyBtn example_app
  /\ timers (step (TimerFired (nextTimer example_app))
                  (exec showCopySuccess example_app))
     = timers example_app
  /\ has_class "d-none"
       (successAlert
          (ui (step (TimerFired (nextTimer example_app))
                    (exec showCopySuccess example_app))))
     = true.
Proof.
  apply (copy_button_restored (platform := reference_parser) example_app);
    [reflexivity | intros id cb []].
Defined.

Lemma second_copy_keeps_copied_label_witness :
  innerHTML
    (copyBtn
       (run [TimerFired (nextTimer example_app);
             TimerFired (S (nextTimer example_app))]
            (exec showCopySuccess (exec showCopySuccess example_app))))
  = copied_label
  /\ timers
       (run [TimerFired (nextTimer example_app);
             TimerFired (S (nextTimer example_app))]
            (exec showCopySuccess (exec showCopySuccess example_app)))
     = timers example_app.
Proof.
  apply (second_copy_keeps_copied_label (platform := reference_parser)
                                        example_app).
  intros id cb [].
Defined.

Lemma clear_outlasts_pending_validations_witness :
  timers (exec handleClear
               (run (platform := reference_parser) [Typed reel] example_app))
  = timers (run (platform := reference_parser) [Typed reel] example_app)
  /\ exec (fire ValidateField)
          (exec handleClear (run [Typed reel] example_app))
     = exec handleClear (run [Typed reel] example_app)
  /\ results_hidden (ui (exec handleClear (run [Typed reel] example_app)))
  /\ error_hidden (ui (exec handleClear (run [Typed reel] example_app)))
  /\ value (originalUrlInput
              (exec handleClear (run [Typed reel] example_app))) = [].
Proof.
  apply (clear_outlasts_pending_validations (platform := reference_parser)
                                            ValidateField).
  reflexivity.
Defined.

Lemma at_most_one_validation_pending_witness :
  started example_app
  /\ pending_validations
       (run (platform := reference_parser)
            [Typed reel; Typed upper_host; Pasted] example_app) <= 1.
Proof.
  assert (Hs : started example_app) by (split; reflexivity).
  split; [exact Hs|].
  apply (at_most_one_validation_pending (platform := reference_parser)).
  exact Hs.
Defined.

Lemma validation_error_never_beside_results_witness :
  error_beside_results_is_copy_error
    (ui (run (platform := reference_parser)
             [Typed reel; CopyClicked failing_browser; Typed upper_host]
             example_app)).
Proof.
  apply (validation_error_never_beside_results (platform := reference_parser)).
  intros H. discriminate H.
Defined.

Lemma success_alert_has_reset_pending_witness :
  started example_app
  /\ success_alert_shown
       (run (platform := reference_parser)
            [Typed reel; CopyClicked old_browser] example_app)
  /\ reset_pending
       (run (platform := reference_parser)
            [Typed reel; CopyClicked old_browser] example_app).
Proof.
  assert (Hs : started example_app) by (split; reflexivity).
  assert (Hshown : success_alert_shown
                     (run (platform := reference_parser)
                          [Typed reel; CopyClicked old_browser] example_app))
    by (vm_compute; reflexivity).
  split; [exact Hs|]. split; [exact Hshown|].
  apply (success_alert_has_reset_pending (platform := reference_parser));
    [exact Hs | reflexivity | exact Hshown].
Defined.

End Examples.
